(** * utymap: the L-system parser (lsys/LSystemParser.cpp)

    A shallow embedding of the Boost.Spirit Qi grammar of the L-system
    parser and of its two entry points, together with the properties of
    the parser that the specification states.

    Input text is a [string]; an iterator position is the suffix of the
    input that is still to be read.  A Qi parser either matches (attribute
    and new position), fails softly (the position it left the iterator at),
    or throws [qi::expectation_failure] (the description of the expected
    component and the position of the failure). *)

From Stdlib Require Import String Ascii List ZArith QArith Bool Lia.
Import ListNotations.

Local Open Scope string_scope.

(** ** Characters and strings *)

Definition nl : ascii := "010"%char.
Definition dquote : ascii := "034"%char.
Definition endl : string := String nl EmptyString.

Definition is_digit (c : ascii) : bool :=
  ((48 <=? nat_of_ascii c) && (nat_of_ascii c <=? 57))%nat.

Definition digit_value (c : ascii) : Z := Z.of_nat (nat_of_ascii c) - 48.

(** [isascii_] of the [ascii] character encoding: codes 0..127. *)
Definition isascii_ (c : ascii) : bool := (nat_of_ascii c <=? 127)%nat.

(** [strip_prefix p s] is what is left of [s] after the literal [p]. *)
Fixpoint strip_prefix (p s : string) : option string :=
  match p with
  | EmptyString => Some s
  | String a p' =>
      match s with
      | EmptyString => None
      | String b s' => if (a =? b)%char then strip_prefix p' s' else None
      end
  end.

(** ** Data model (lsys/LSystem.hpp) *)

(** [LSystem::RuleType]: a shared pointer to one of the three rule
    classes.  The two built-in rules are the shared instances [forward]
    and [jump]; a word rule carries its word. *)
Inductive Rule : Type :=
| MoveForwardRule
| JumpForwardRule
| WordRule (word : string).

Definition forward : Rule := MoveForwardRule.
Definition jump : Rule := JumpForwardRule.

Definition Rules := list Rule.

(** Values of C++ [double] are represented by the exact rational value of
    the decimal literal they were read from; rounding to binary64 is not
    part of the model. *)
Definition double := Q.

(** [LSystem::Productions]: weighted successors of one predecessor. *)
Definition Productions := list (double * Rules).

(** Modelled from the spec: [RuleComparator] is declared in
    lsys/LSystem.hpp, which is not part of the sources at hand.  Rules are
    totally ordered by variant tag, then by payload. *)
Definition rule_tag (r : Rule) : nat :=
  match r with
  | MoveForwardRule => 0
  | JumpForwardRule => 1
  | WordRule _ => 2
  end.

Definition rule_compare (a b : Rule) : comparison :=
  match a, b with
  | WordRule u, WordRule v => String.compare u v
  | _, _ => Nat.compare (rule_tag a) (rule_tag b)
  end.

Definition RuleComparator (a b : Rule) : bool :=
  match rule_compare a b with Lt => true | _ => false end.

(** [std::map<RuleType, Productions, RuleComparator>] as the list of its
    entries in key order. *)
Definition ProductionPair := (Rule * Productions)%type.
Definition ProductionMap := list ProductionPair.

Module StdMap.

(** Two keys are equivalent when neither is less than the other. *)
Definition equiv (a b : Rule) : bool :=
  negb (RuleComparator a b) && negb (RuleComparator b a).

Fixpoint find (k : Rule) (m : ProductionMap) : option Productions :=
  match m with
  | [] => None
  | (k', v) :: m' => if equiv k k' then Some v else find k m'
  end.

(** [map::insert]: the value is stored only when the map has no entry
    with an equivalent key; an existing entry is left as it is. *)
Fixpoint insert (kv : ProductionPair) (m : ProductionMap) : ProductionMap :=
  match m with
  | [] => [kv]
  | (k', v') :: m' =>
      if RuleComparator (fst kv) k' then kv :: (k', v') :: m'
      else if RuleComparator k' (fst kv) then (k', v') :: insert kv m'
      else (k', v') :: m'
  end.

End StdMap.

Record LSystem : Type := {
  generations : Z;
  angle : double;
  scale : double;
  axiom : Rules;
  productions : ProductionMap
}.

(** Helper structure for parsing production map. *)
Record Production : Type := {
  predcessor : Rule;
  probability : double;
  successor : Rules
}.

(** ** Boost.Spirit Qi: results, skipping, primitive parsers *)

Inductive result (A : Type) : Type :=
| Match (a : A) (rest : string)
| NoMatch (pos : string)
| ExpectationFailure (what : string) (pos : string).

Arguments Match {A} a rest.
Arguments NoMatch {A} pos.
Arguments ExpectationFailure {A} what pos.

(** A skipper matches one skippable item or nothing. *)
Definition skipper := string -> option string.

(** [unused_skipper]: what a [lexeme] hands to its subject. *)
Definition unused_skipper : skipper := fun _ => None.

(** A parser has the [parse] function and the [what] description that an
    expectation failure reports. *)
Record parser (A : Type) : Type := {
  parse : skipper -> string -> result A;
  what : string
}.

Arguments parse {A} p sk s.
Arguments what {A} p.
Arguments Build_parser {A} parse what.

(** [qi::skip_over]: apply the skipper while it matches.  The loop is cut
    at the length of the input, which it cannot exceed when every match of
    the skipper consumes a character. *)
Fixpoint skip_loop (fuel : nat) (sk : skipper) (s : string) : string :=
  match fuel with
  | O => s
  | S n =>
      match sk s with
      | Some r => skip_loop n sk r
      | None => s
      end
  end.

Definition skip_over (sk : skipper) (s : string) : string :=
  skip_loop (String.length s) sk s.

(** [info] printed by the [simple_printer]: a tag without a value prints
    as <tag>, a tag with a value prints the quoted value. *)
Definition info_tag (tag : string) : string := "<" ++ tag ++ ">".
Definition info_value (v : string) : string :=
  String dquote (v ++ String dquote EmptyString).

(** [qi::lit(str)] *)
Definition lit (str : string) : parser unit :=
  {| parse := fun sk s =>
       let s1 := skip_over sk s in
       match strip_prefix str s1 with
       | Some r => Match tt r
       | None => NoMatch s1
       end;
     what := info_value str |}.

(** A character literal such as ['\n'] or ['('] inside an expression. *)
Definition lit_char (c : ascii) : parser unit :=
  {| parse := fun sk s =>
       let s1 := skip_over sk s in
       match s1 with
       | String b r => if (b =? c)%char then Match tt r else NoMatch s1
       | EmptyString => NoMatch s1
       end;
     what := info_value (String c EmptyString) |}.

(** [ascii::char_]: any character of the ASCII encoding. *)
Definition ascii_char_ : parser ascii :=
  {| parse := fun sk s =>
       let s1 := skip_over sk s in
       match s1 with
       | String b r => if isascii_ b then Match b r else NoMatch s1
       | EmptyString => NoMatch s1
       end;
     what := info_tag "char" |}.

(** [qi::attr(v)]: consumes nothing and always matches. *)
Definition attr {A : Type} (v : A) : parser A :=
  {| parse := fun _ s => Match v s; what := info_tag "attr" |}.

(** ** Combinators *)

(** [a | b]: both alternatives work on the same iterator, so the second
    starts where the first left it. *)
Definition alternative {A : Type} (p q : parser A) : parser A :=
  {| parse := fun sk s =>
       match parse p sk s with
       | NoMatch pos => parse q sk pos
       | other => other
       end;
     what := info_tag "alternative" ++ what p ++ what q |}.

(** [a - b] *)
Definition difference {A B : Type} (p : parser A) (q : parser B) : parser A :=
  {| parse := fun sk s =>
       match parse q sk s with
       | Match _ _ => NoMatch s
       | NoMatch pos => parse p sk pos
       | ExpectationFailure w e => ExpectationFailure w e
       end;
     what := info_tag "difference" ++ what p ++ what q |}.

(** [qi::lexeme[p]]: pre-skip, then the subject runs without a skipper. *)
Definition lexeme {A : Type} (p : parser A) : parser A :=
  {| parse := fun sk s => parse p unused_skipper (skip_over sk s);
     what := what p |}.

(** [p[_val = f(_1)]]: a semantic action that builds the attribute. *)
Definition action {A B : Type} (f : A -> B) (p : parser A) : parser B :=
  {| parse := fun sk s =>
       match parse p sk s with
       | Match a r => Match (f a) r
       | NoMatch pos => NoMatch pos
       | ExpectationFailure w e => ExpectationFailure w e
       end;
     what := what p |}.

(** [a > b]: the sequence works on a copy of the iterator; when [a]
    matches and [b] does not, [expectation_failure] is thrown with the
    position [b] left the iterator at and the description of [b]. *)
Definition expect {A B : Type} (p : parser A) (q : parser B) : parser (A * B) :=
  {| parse := fun sk s =>
       match parse p sk s with
       | Match a r =>
           match parse q sk r with
           | Match b r' => Match (a, b) r'
           | NoMatch pos => ExpectationFailure (what q) pos
           | ExpectationFailure w e => ExpectationFailure w e
           end
       | NoMatch _ => NoMatch s
       | ExpectationFailure w e => ExpectationFailure w e
       end;
     what := what p |}.

(** The loop of [*a]: it ends at the first soft failure of the subject and
    keeps the position the subject left the iterator at. *)
Fixpoint kleene_loop {A : Type} (fuel : nat) (p : parser A) (sk : skipper)
    (s : string) : result (list A) :=
  match fuel with
  | O => Match [] s
  | S n =>
      match parse p sk s with
      | Match a r =>
          match kleene_loop n p sk r with
          | Match l r' => Match (a :: l) r'
          | other => other
          end
      | NoMatch pos => Match [] pos
      | ExpectationFailure w e => ExpectationFailure w e
      end
  end.

(** The loop is cut after one more round than the input has characters,
    which it cannot reach when every match of the subject consumes one. *)
Definition kleene_from {A : Type} (p : parser A) (sk : skipper) (s : string)
    : result (list A) :=
  kleene_loop (S (String.length s)) p sk s.

(** [+a] *)
Definition plus {A : Type} (p : parser A) : parser (list A) :=
  {| parse := fun sk s =>
       match parse p sk s with
       | Match a r =>
           match kleene_from p sk r with
           | Match l r' => Match (a :: l) r'
           | other => other
           end
       | NoMatch _ => NoMatch s
       | ExpectationFailure w e => ExpectationFailure w e
       end;
     what := info_tag "plus" ++ what p |}.

(** The loop of [a % b] after the first element: a separator followed by
    an element; a separator that is not followed by an element is given
    back. *)
Fixpoint list_loop {A B : Type} (fuel : nat) (p : parser A) (sep : parser B)
    (sk : skipper) (s : string) : result (list A) :=
  match fuel with
  | O => Match [] s
  | S n =>
      match parse sep sk s with
      | Match _ r =>
          match parse p sk r with
          | Match a r' =>
              match list_loop n p sep sk r' with
              | Match l r'' => Match (a :: l) r''
              | other => other
              end
          | NoMatch _ => Match [] s
          | ExpectationFailure w e => ExpectationFailure w e
          end
      | NoMatch _ => Match [] s
      | ExpectationFailure w e => ExpectationFailure w e
      end
  end.

Definition list_from {A B : Type} (p : parser A) (sep : parser B)
    (sk : skipper) (s : string) : result (list A) :=
  list_loop (S (String.length s)) p sep sk s.

(** [a % b] *)
Definition list_ {A B : Type} (p : parser A) (sep : parser B) : parser (list A) :=
  {| parse := fun sk s =>
       match parse p sk s with
       | Match a r =>
           match list_from p sep sk r with
           | Match l r' => Match (a :: l) r'
           | other => other
           end
       | NoMatch _ => NoMatch s
       | ExpectationFailure w e => ExpectationFailure w e
       end;
     what := info_tag "list" ++ what p ++ what sep |}.

(** A [qi::rule] gives its definition a name. *)
Definition rule_named {A : Type} (name : string) (p : parser A) : parser A :=
  {| parse := parse p; what := info_tag name |}.

(** ** Numeric parsers *)

(** Leading decimal digits of [s], accumulated onto [acc]: the value, the
    number of digits read and the rest. *)
Fixpoint extract_uint (s : string) (acc : Z) : Z * nat * string :=
  match s with
  | String c r =>
      if is_digit c then
        match extract_uint r (acc * 10 + digit_value c) with
        | (v, n, r') => (v, S n, r')
        end
      else (acc, O, s)
  | EmptyString => (acc, O, s)
  end.

(** An optional sign: [true] for a minus. *)
Definition extract_sign (s : string) : bool * string :=
  match s with
  | String c r =>
      if (c =? "-")%char then (true, r)
      else if (c =? "+")%char then (false, r)
      else (false, s)
  | EmptyString => (false, s)
  end.

Definition int_min : Z := -2147483648.
Definition int_max : Z := 2147483647.

(** [extract_int<int>]: sign, at least one digit, no overflow of [int]. *)
Definition extract_int (s : string) : option (Z * string) :=
  let (neg, s1) := extract_sign s in
  match extract_uint s1 0 with
  | (_, O, _) => None
  | (v, S _, r) =>
      let n := if neg then (- v)%Z else v in
      if ((int_min <=? n) && (n <=? int_max))%Z then Some (n, r) else None
  end.

(** [qi::int_] *)
Definition int_ : parser Z :=
  {| parse := fun sk s =>
       let s1 := skip_over sk s in
       match extract_int s1 with
       | Some (n, r) => Match n r
       | None => NoMatch s1
       end;
     what := info_tag "integer" |}.

(** The value [m * 10^e] of a decimal literal. *)
Definition scale10 (m e : Z) : double :=
  Qred (inject_Z m * Qpower (10 # 1) e).

(** The exponent part of a real number: after the prefix [e] or [E] an
    integer is mandatory. *)
Definition extract_exponent (s : string) : option (Z * string) :=
  match s with
  | String c r =>
      if ((c =? "e")%char || (c =? "E")%char)%bool then extract_int r
      else Some (0%Z, s)
  | EmptyString => Some (0%Z, s)
  end.

(** [real_impl::parse] with the default [real_policies<double>]
    (leading and trailing dot allowed, dot not mandatory), for decimal
    literals; the spellings of infinity and of not-a-number that the real
    parser also accepts have no value in [double] and are left out.

    [real_finish]: the exponent and the value. *)
Definition real_finish (neg : bool) (m : Z) (frac_digits : nat) (s4 : string)
    : option (double * string) :=
  match extract_exponent s4 with
  | Some (e, r) =>
      Some (scale10 (if neg then (- m)%Z else m) (e - Z.of_nat frac_digits), r)
  | None => None
  end.

(** [real_tail]: after the sign and the integer digits ([cnt] of them,
    value [n]), the dot and the fraction; without integer digits a dot and
    a fraction are mandatory. *)
Definition real_tail (neg : bool) (n : Z) (cnt : nat) (s2 : string)
    : option (double * string) :=
  match s2 with
  | String c s3 =>
      if (c =? ".")%char then
        match extract_uint s3 n with
        | (m, fcnt, s4) =>
            match cnt, fcnt with
            | O, O => None
            | _, _ => real_finish neg m fcnt s4
            end
        end
      else
        match cnt with
        | O => None
        | S _ => real_finish neg n O s2
        end
  | EmptyString =>
      match cnt with
      | O => None
      | S _ => real_finish neg n O s2
      end
  end.

Definition extract_real (s : string) : option (double * string) :=
  let (neg, s1) := extract_sign s in
  match extract_uint s1 0 with
  | (n, cnt, s2) => real_tail neg n cnt s2
  end.

(** [qi::double_] *)
Definition double_ : parser double :=
  {| parse := fun sk s =>
       let s1 := skip_over sk s in
       match extract_real s1 with
       | Some (d, r) => Match d r
       | None => NoMatch s1
       end;
     what := info_tag "real" |}.

(** ** The grammar of lsys/LSystemParser.cpp *)

(** [qi::symbols]: the longest key of the table that the input starts
    with. *)
Fixpoint symbols_find (table : list (string * Rule)) (s : string)
    : option (nat * Rule * string) :=
  match table with
  | [] => None
  | (key, v) :: table' =>
      let best := symbols_find table' s in
      match strip_prefix key s with
      | Some r =>
          match best with
          | Some (n, v', r') =>
              if (n <? String.length key)%nat
              then Some (String.length key, v, r) else best
          | None => Some (String.length key, v, r)
          end
      | None => best
      end
  end.

Definition symbols (table : list (string * Rule)) : parser Rule :=
  {| parse := fun sk s =>
       let s1 := skip_over sk s in
       match symbols_find table s1 with
       | Some (_, v, r) => Match v r
       | None => NoMatch s1
       end;
     what := info_tag "symbols" |}.

Definition RuleTable : list (string * Rule) :=
  [("F", forward); ("f", jump)].

Definition WordRuleFactory (c : ascii) : Rule :=
  WordRule (String c EmptyString).

Definition ProductionFactory (p : Production) : ProductionPair :=
  (predcessor p, [(probability p, successor p)]).

(** [not_newline_star] is [*(qi::char_ - '\n')]: it stops in front of the
    first newline or at the end of the input. *)
Fixpoint not_newline_star (s : string) : string :=
  match s with
  | String c r => if (c =? nl)%char then s else not_newline_star r
  | EmptyString => s
  end.

(** [CommentSkipper::start]: one space, or a comment from [#] to the
    newline that ends it. *)
Definition CommentSkipper : skipper := fun s =>
  match s with
  | String c r =>
      if (c =? " ")%char then Some r
      else if (c =? "#")%char then
        match not_newline_star r with
        | String _ r' => Some r'
        | EmptyString => None
        end
      else None
  | EmptyString => None
  end.

Module RuleGrammar.

Definition word : parser Rule :=
  rule_named "word"
    (action WordRuleFactory
       (lexeme (difference ascii_char_
                  (alternative (lit_char " ") (lit_char nl))))).

Definition start : parser Rule :=
  rule_named "rule" (alternative (symbols RuleTable) word).

End RuleGrammar.

Module ProductionGrammar.

Definition rule : parser Rule := RuleGrammar.start.

Definition probability : parser double :=
  rule_named "unnamed-rule"
    (alternative
       (action (fun t : unit * double * unit => snd (fst t))
          (expect (expect (lit_char "(") double_) (lit_char ")")))
       (attr 1%Q)).

Definition production : parser Production :=
  rule_named "unnamed-rule"
    (action
       (fun t : Rule * double * unit * Rules =>
          Build_Production (fst (fst (fst t))) (snd (fst (fst t))) (snd t))
       (expect (expect (expect rule probability) (lit "->")) (plus rule))).

Definition pair : parser ProductionPair :=
  rule_named "unnamed-rule" (action ProductionFactory production).

(** Every parsed pair is pushed into the map attribute with
    [insert]. *)
Definition collect (l : list ProductionPair) : ProductionMap :=
  fold_left (fun m kv => StdMap.insert kv m) l [].

Definition start : parser ProductionMap :=
  rule_named "unnamed-rule" (action collect (list_ pair (lit_char nl))).

End ProductionGrammar.

Module LSystemGrammar.

Definition rule : parser Rule := RuleGrammar.start.
Definition production : parser ProductionMap := ProductionGrammar.start.

(** The attribute of the sequence fills the adapted [LSystem] struct
    field by field. *)
Definition build
    (t : unit * Z * unit * double * unit * double * unit * Rules * unit
         * ProductionMap) : LSystem :=
  match t with
  | (_, g, _, a, _, s, _, ax, _, ps) =>
      {| generations := g; angle := a; scale := s; axiom := ax;
         productions := ps |}
  end.

(** The right-hand side of [start].  The operands of [>] form one flat
    expectation sequence, whatever the parentheses: only the first literal
    can fail softly, every later operand is an expectation point.  A
    grammar used inside an expression stands for its start rule, so
    [+rule] reports the name of [RuleGrammar::start] and [production] the
    name of the unnamed start rule of the production grammar. *)
Definition sequence : parser LSystem :=
  action build
    (expect (expect (expect (expect (expect (expect (expect (expect (expect
       (lit "generations:") int_)
       (lit "angle:")) double_)
       (lit "scale:")) double_)
       (lit "axiom:")) (plus rule)) (lit_char nl))
       production).

(** The text the error handler writes to the [error] stream. *)
Definition error_text (what pos : string) : string :=
  "Error! Expecting " ++ what ++ " here: "
    ++ String dquote (pos ++ String dquote endl).

(** [start] with [qi::on_error<qi::fail>] installed: an expectation
    failure thrown anywhere below is caught, described on the [error]
    stream, and turned into a soft failure.  The second component is
    the content of the [error] stream afterwards. *)
Definition start (sk : skipper) (s : string) : result LSystem * string :=
  match parse sequence sk s with
  | Match l r => (Match l r, EmptyString)
  | NoMatch pos => (NoMatch pos, EmptyString)
  | ExpectationFailure w e => (NoMatch s, error_text w e)
  end.

End LSystemGrammar.

(** [qi::phrase_parse] with the default post-skip: whether the grammar
    matched, the attribute, and the position after the post-skip.  The
    position is not compared with the end of the input. *)
Definition phrase_parse (s : string) : option (LSystem * string) * string :=
  match LSystemGrammar.start CommentSkipper s with
  | (Match l r, err) => (Some (l, skip_over CommentSkipper r), err)
  | (_, err) => (None, err)
  end.

(** What a call of the parser ends in: the returned [LSystem], or a thrown
    [std::domain_error] with its message. *)
Inductive outcome : Type :=
| Returned (lsystem : LSystem)
| DomainError (message : string).

(** [parse(Iterator begin, Iterator end, LSystem& lsystem)] of the
    anonymous namespace. *)
Definition parse_range (s : string) : outcome :=
  match phrase_parse s with
  | (Some (l, _), _) => Returned l
  | (None, err) => DomainError ("Cannot parse lsystem:" ++ err)
  end.

Module LSystemParser.

(** [LSystemParser::parse(const std::string&)] *)
Definition parse (str : string) : outcome := parse_range str.

(** A [std::istream] as the characters its buffer still holds. *)
Record istream : Type := { rdbuf : list ascii }.

(** The [std::string] built from a pair of [istreambuf_iterator]s: the
    characters of the stream up to its end, one at a time. *)
Fixpoint read_all (chars : list ascii) : string :=
  match chars with
  | [] => EmptyString
  | c :: cs => String c (read_all cs)
  end.

(** [LSystemParser::parse(std::istream&)] *)
Definition parse_stream (istream : istream) : outcome :=
  let content := read_all (rdbuf istream) in
  parse content.

End LSystemParser.

(** * Notions used by the statements *)

(** [suffix r s]: the position [r] lies in the input [s]. *)
Definition suffix (r s : string) : Prop := exists a, s = a ++ r.

(** What [RuleGrammar::start] does with the first character that is left
    after skipping. *)
Definition rule_of_char (c : ascii) : option Rule :=
  if (c =? "F")%char then Some forward
  else if (c =? "f")%char then Some jump
  else if (isascii_ c && negb (c =? " ")%char && negb (c =? nl)%char)%bool
       then Some (WordRuleFactory c)
  else None.



(** Text without a newline, and text of ASCII characters only. *)
Definition no_newline (t : string) : Prop :=
  ~ In nl (list_ascii_of_string t).


(** The names an expectation failure of this grammar can carry. *)
Definition expected_names : list string :=
  [info_tag "integer"; info_value "angle:"; info_tag "real";
   info_value "scale:"; info_value "axiom:";
   info_tag "plus" ++ info_tag "rule"; info_value endl;
   info_tag "unnamed-rule"; info_value ")"; info_value "->"].

(** [sound p]: wherever [p] stops, it stops inside its input, and what it
    throws names one of the expected components. *)
Definition sound {A : Type} (p : parser A) : Prop :=
  forall s,
    match parse p CommentSkipper s with
    | Match _ r => suffix r s
    | NoMatch pos => suffix pos s
    | ExpectationFailure w e => In w expected_names /\ suffix e s
    end.

(** The header a document starts with: after skipping, each keyword in
    its place followed by its value, at least one axiom symbol, and the
    newline that ends the axiom line. *)
Definition header_present (s : string) (g : Z) (a sc : double) (ax : Rules)
    (rest : string) : Prop :=
  exists r1 r2 r3 r4 r5 r6 r7 r8,
    strip_prefix "generations:" (skip_over CommentSkipper s) = Some r1 /\
    extract_int (skip_over CommentSkipper r1) = Some (g, r2) /\
    strip_prefix "angle:" (skip_over CommentSkipper r2) = Some r3 /\
    extract_real (skip_over CommentSkipper r3) = Some (a, r4) /\
    strip_prefix "scale:" (skip_over CommentSkipper r4) = Some r5 /\
    extract_real (skip_over CommentSkipper r5) = Some (sc, r6) /\
    strip_prefix "axiom:" (skip_over CommentSkipper r6) = Some r7 /\
    parse (plus RuleGrammar.start) CommentSkipper r7 = Match ax r8 /\
    ax <> [] /\
    skip_over CommentSkipper r8 = String nl rest.

(** An entry that comes from a production line of the input [s]. *)
Definition from_line (s : string) (kv : ProductionPair) : Prop :=
  exists pos p r,
    suffix pos s /\
    parse ProductionGrammar.production CommentSkipper pos = Match p r /\
    kv = ProductionFactory p.

(** A small document and the [LSystem] it stands for. *)
Definition scenario : string :=
  "generations:5 angle:20 scale:0.6 axiom:F" ++ endl ++ "F -> F".

Definition scenario_lsystem : LSystem :=
  {| generations := 5; angle := 20; scale := 3 # 5;
     axiom := [MoveForwardRule];
     productions := [(MoveForwardRule, [(1%Q, [MoveForwardRule])])] |}.

(** [has_newline s]: a newline occurs in [s]. *)
Definition has_newline (s : string) : bool :=
  match not_newline_star s with
  | EmptyString => false
  | String _ _ => true
  end.

(** [comments_closed q]: every [#] of [q] has a newline after it inside
    [q]; the end of [q] is neither inside a comment nor behind a [#] that
    nothing ends. *)
Fixpoint comments_closed (q : string) : bool :=
  match q with
  | EmptyString => true
  | String c q' =>
      if (c =? "#")%char then has_newline q' && comments_closed q'
      else comments_closed q'
  end.

(** Text that starts with a space, a [#] or a newline: no token of the
    grammar reads such a character behind its first one. *)
Definition stopper_head (z : string) : Prop :=
  exists c t,
    z = String c t /\ (c = " "%char \/ c = "#"%char \/ c = nl).

(** The shape of a Qi expression: tokens (primitive parsers that skip
    before they match) and the operators that combine them. *)
Inductive grammar : Type -> Type :=
| Token {A : Type} (p : parser A) : grammar A
| Attr {A : Type} (v : A) : grammar A
| Alternative {A : Type} (a b : grammar A) : grammar A
| Action {A B : Type} (f : A -> B) (a : grammar A) : grammar B
| Expect {A B : Type} (a : grammar A) (b : grammar B) : grammar (A * B)
| Plus {A : Type} (a : grammar A) : grammar (list A)
| ListOf {A B : Type} (a : grammar A) (sep : grammar B) : grammar (list A)
| Named {A : Type} (name : string) (a : grammar A) : grammar A.

(** The parser a term stands for. *)
Fixpoint interp {A : Type} (g : grammar A) : parser A :=
  match g with
  | Token p => p
  | Attr v => attr v
  | Alternative a b => alternative (interp a) (interp b)
  | Action f a => action f (interp a)
  | Expect a b => expect (interp a) (interp b)
  | Plus a => plus (interp a)
  | ListOf a sep => list_ (interp a) (interp sep)
  | Named name a => rule_named name (interp a)
  end.

(** A matched token: where it starts (after skipping) and where it
    ends. *)
Definition span := (string * string)%type.

(** The tokens matched in the rounds of [kleene_loop] and of
    [list_loop]. *)
Fixpoint kleene_spans {A : Type} (fuel : nat) (p : parser A)
    (sp : string -> list span) (s : string) : list span :=
  match fuel with
  | O => []
  | S n =>
      match parse p CommentSkipper s with
      | Match _ r => sp s ++ kleene_spans n p sp r
      | _ => []
      end
  end.

Fixpoint list_spans {A B : Type} (fuel : nat) (p : parser A) (sep : parser B)
    (sp spsep : string -> list span) (s : string) : list span :=
  match fuel with
  | O => []
  | S n =>
      match parse sep CommentSkipper s with
      | Match _ r =>
          spsep s ++
          match parse p CommentSkipper r with
          | Match _ r' => sp r ++ list_spans n p sep sp spsep r'
          | _ => []
          end
      | _ => []
      end
  end.

(** The tokens matched while [g] parses [s], in order; a separator that
    is given back at the end of a list is among them. *)
Fixpoint spans {A : Type} (g : grammar A) (s : string) : list span :=
  match g with
  | Token p =>
      match parse p CommentSkipper s with
      | Match _ r => [(skip_over CommentSkipper s, r)]
      | _ => []
      end
  | Attr _ => []
  | Alternative a b =>
      match parse (interp a) CommentSkipper s with
      | NoMatch pos => spans b pos
      | _ => spans a s
      end
  | Action _ a => spans a s
  | Expect a b =>
      match parse (interp a) CommentSkipper s with
      | Match _ r => spans a s ++ spans b r
      | _ => spans a s
      end
  | Plus a =>
      match parse (interp a) CommentSkipper s with
      | Match _ r =>
          spans a s ++
          kleene_spans (S (String.length r)) (interp a) (spans a) r
      | _ => []
      end
  | ListOf a sep =>
      match parse (interp a) CommentSkipper s with
      | Match _ r =>
          spans a s ++
          list_spans (S (String.length r)) (interp a) (interp sep)
            (spans a) (spans sep) r
      | _ => []
      end
  | Named _ a => spans a s
  end.

(** The grammar of the parser, rule by rule. *)
Module Syntax.

Definition rule : grammar Rule := Token RuleGrammar.start.

Definition probability : grammar double :=
  Named "unnamed-rule"
    (Alternative
       (Action (fun t : unit * double * unit => snd (fst t))
          (Expect (Expect (Token (lit_char "(")) (Token double_))
                  (Token (lit_char ")"))))
       (Attr 1%Q)).

Definition production : grammar Production :=
  Named "unnamed-rule"
    (Action
       (fun t : Rule * double * unit * Rules =>
          Build_Production (fst (fst (fst t))) (snd (fst (fst t))) (snd t))
       (Expect (Expect (Expect rule probability) (Token (lit "->")))
               (Plus rule))).

Definition pair : grammar ProductionPair :=
  Named "unnamed-rule" (Action ProductionFactory production).

Definition productions : grammar ProductionMap :=
  Named "unnamed-rule"
    (Action ProductionGrammar.collect (ListOf pair (Token (lit_char nl)))).

Definition lsystem : grammar LSystem :=
  Action LSystemGrammar.build
    (Expect (Expect (Expect (Expect (Expect (Expect (Expect (Expect (Expect
       (Token (lit "generations:")) (Token int_))
       (Token (lit "angle:"))) (Token double_))
       (Token (lit "scale:"))) (Token double_))
       (Token (lit "axiom:"))) (Plus rule)) (Token (lit_char nl)))
       productions).

End Syntax.

(** The tokens of an input. *)
Definition token_spans (s : string) : list span := spans Syntax.lsystem s.

(** [strictly_inside e t]: the position [e] lies inside the token [t],
    after its first and before its last character. *)
Definition strictly_inside (e : string) (t : span) : bool :=
  ((String.length (snd t) <? String.length e) &&
   (String.length e <? String.length (fst t)))%nat.

(** [clear_of e sp]: the position [e] is inside none of the tokens. *)
Definition clear_of (e : string) (sp : list span) : bool :=
  forallb (fun t => negb (strictly_inside e t)) sp.

(** Two positions are related when they are the same, or when they are
    the same text [q] in front of the insertion point [e], once without
    and once with the inserted item [ins]; every comment of [q] is closed
    inside [q]. *)
Definition related (e ins : string) (x y : string) : Prop :=
  x = y \/
  exists q, comments_closed q = true /\ x = q ++ e /\ y = q ++ ins ++ e.

(** Related positions after skipping: the same, or stuck at the same
    character in front of the insertion point. *)
Definition related_stuck (e ins : string) (x y : string) : Prop :=
  x = y \/
  exists c q,
    comments_closed q = true /\ c <> " "%char /\ c <> "#"%char /\
    x = String c (q ++ e) /\ y = String c (q ++ ins ++ e).

(** A parser is stable when on related inputs it matches with the same
    attribute and related positions, provided the insertion point is
    inside none of the tokens it matches. *)
Definition stable_match (e ins : string) {A : Type} (p : parser A)
    (sp : string -> list span) : Prop :=
  forall x y a r,
    related e ins x y -> parse p CommentSkipper x = Match a r ->
    clear_of e (sp x) = true ->
    exists r', parse p CommentSkipper y = Match a r' /\ related e ins r r'.

(** And when on related inputs it fails softly at related positions. *)
Definition stable_nomatch (e ins : string) {A : Type} (p : parser A) : Prop :=
  forall x y pos,
    related e ins x y -> parse p CommentSkipper x = NoMatch pos ->
    exists pos',
      parse p CommentSkipper y = NoMatch pos' /\ related e ins pos pos'.

(** Tokens: skip, then read from the text itself. *)
Definition token_of {A : Type} (p : parser A)
    (E : string -> option (A * string)) : Prop :=
  forall s,
    parse p CommentSkipper s =
    match E (skip_over CommentSkipper s) with
    | Some (v, r) => Match v r
    | None => NoMatch (skip_over CommentSkipper s)
    end.

(** A token that ends in front of [z] reads the same in front of any text
    that starts with a space, a [#] or a newline. *)
Definition local_extractor {A : Type} (E : string -> option (A * string))
    : Prop :=
  forall w z v r,
    E (w ++ z) = Some (v, r) ->
    (String.length z <= String.length r)%nat ->
    exists w2, r = w2 ++ z /\
      forall z', stopper_head z' -> E (w ++ z') = Some (v, w2 ++ z').

(** What a token leaves is a part of what it was given. *)
Definition extractor_suffix {A : Type} (E : string -> option (A * string))
    : Prop :=
  forall s v r, E s = Some (v, r) -> suffix r s.

(** A failure that the first character decides. *)
Definition head_decided {A : Type} (E : string -> option (A * string))
    : Prop :=
  forall c t t', E (String c t) = None -> E (String c t') = None.

(** Every match consumes a character; no match gives characters back. *)
Definition progresses {A} (p : parser A) : Prop :=
  forall s a r, parse p CommentSkipper s = Match a r ->
    (String.length r < String.length s)%nat.

Definition shrinks {A} (p : parser A) : Prop :=
  forall s a r, parse p CommentSkipper s = Match a r ->
    (String.length r <= String.length s)%nat.

(** A token that is decided by one character. *)
Definition char_extractor {A : Type} (f : ascii -> option A) (s : string)
    : option (A * string) :=
  match s with
  | String c r =>
      match f c with
      | Some v => Some (v, r)
      | None => None
      end
  | EmptyString => None
  end.

(** The token of a literal string. *)
Definition lit_extractor (str s : string) : option (unit * string) :=
  match strip_prefix str s with
  | Some r => Some (tt, r)
  | None => None
  end.

(** [carries e p]: a match of [p] on a text whose comments are closed is
    the same match when [e] is appended to the text, and likewise a soft
    failure. *)
Definition carries (e : string) {A : Type} (p : parser A) : Prop :=
  forall x a r,
    comments_closed x = true -> parse p CommentSkipper x = Match a r ->
    parse p CommentSkipper (x ++ e) = Match a (r ++ e) /\
    comments_closed r = true.

Definition carries_nomatch (e : string) {A : Type} (p : parser A) : Prop :=
  forall x pos,
    comments_closed x = true -> parse p CommentSkipper x = NoMatch pos ->
    parse p CommentSkipper (x ++ e) = NoMatch (pos ++ e) /\
    comments_closed pos = true.

(** ** Notions of the further properties *)

(** Two results that differ at most in the position of a soft failure. *)
Definition same_outcome {A : Type} (a b : result A) : Prop :=
  match a, b with
  | Match x r, Match y r' => x = y /\ r = r'
  | NoMatch _, NoMatch _ => True
  | ExpectationFailure w e, ExpectationFailure w' e' => w = w' /\ e = e'
  | _, _ => False
  end.

(** The entry that a list of parsed lines holds first for a key. *)
Definition first_of (k : Rule) (l : list ProductionPair) : option Productions :=
  match List.find (fun kv => StdMap.equiv k (fst kv)) l with
  | Some kv => Some (snd kv)
  | None => None
  end.

(** [below k m]: every key of [m] is greater than [k]. *)
Definition below (k : Rule) (m : ProductionMap) : Prop :=
  forall kv, In kv m -> RuleComparator k (fst kv) = true.

(** The keys of the map increase strictly. *)
Fixpoint increasing (m : ProductionMap) : Prop :=
  match m with
  | [] => True
  | kv :: m' => below (fst kv) m' /\ increasing m'
  end.

(** A rule that the symbol grammar can give: one of the two shared rules,
    or the word rule of one ASCII character that is neither a space, a
    newline, [F] nor [f]. *)
Definition symbol_rule (r : Rule) : Prop :=
  r = MoveForwardRule \/ r = JumpForwardRule \/
  exists c,
    r = WordRule (String c EmptyString) /\ isascii_ c = true /\
    c <> " "%char /\ c <> nl /\ c <> "F"%char /\ c <> "f"%char.

(** Text at which no symbol starts: the end of the input, a newline, or
    a character outside ASCII. *)
Definition line_end (r : string) : Prop :=
  r = EmptyString \/
  exists c r', r = String c r' /\ (c = nl \/ isascii_ c = false).

(** * Properties *)

(** ** Strings and suffixes *)

Lemma suffix_refl s : suffix s s.
Proof. exists EmptyString. reflexivity. Qed.

Lemma append_assoc (a b c : string) : (a ++ b) ++ c = a ++ (b ++ c).
Proof. induction a as [|x a IH]; simpl; [reflexivity | now rewrite IH]. Qed.

Lemma length_append (a b : string) :
  String.length (a ++ b) = (String.length a + String.length b)%nat.
Proof. induction a as [|x a IH]; simpl; [reflexivity | now rewrite IH]. Qed.

Lemma suffix_trans r s t : suffix r s -> suffix s t -> suffix r t.
Proof.
  intros [a Ha] [b Hb]. exists (b ++ a). subst. now rewrite append_assoc.
Qed.

Lemma suffix_cons c s : suffix s (String c s).
Proof. exists (String c EmptyString). reflexivity. Qed.

Lemma suffix_length r s : suffix r s -> (String.length r <= String.length s)%nat.
Proof. intros [a ->]. rewrite length_append. lia. Qed.

Lemma strip_prefix_append p s r : strip_prefix p s = Some r -> s = p ++ r.
Proof.
  revert s. induction p as [|a p IH]; intros s H; simpl in *.
  - now inversion H.
  - destruct s as [|b s]; [discriminate|].
    destruct (Ascii.eqb_spec a b); [|discriminate].
    subst. f_equal. now apply IH.
Qed.

Lemma strip_prefix_suffix p s r : strip_prefix p s = Some r -> suffix r s.
Proof. intros H. exists p. now apply strip_prefix_append. Qed.

(** ** The skipper *)

Lemma not_newline_star_suffix s : suffix (not_newline_star s) s.
Proof.
  induction s as [|c s IH]; simpl.
  - apply suffix_refl.
  - destruct (c =? nl)%char; [apply suffix_refl|].
    eapply suffix_trans; [exact IH | apply suffix_cons].
Qed.

Lemma CommentSkipper_suffix s r : CommentSkipper s = Some r -> suffix r s.
Proof.
  destruct s as [|c s]; simpl; [discriminate|].
  destruct (c =? " ")%char.
  - intros H. inversion H. apply suffix_cons.
  - destruct (c =? "#")%char; [|discriminate].
    destruct (not_newline_star s) as [|c' r'] eqn:E; [discriminate|].
    intros H. inversion H. subst.
    eapply suffix_trans; [apply suffix_cons|].
    eapply suffix_trans; [|apply suffix_cons].
    rewrite <- E. apply not_newline_star_suffix.
Qed.

Lemma CommentSkipper_shorter s r :
  CommentSkipper s = Some r -> (String.length r < String.length s)%nat.
Proof.
  destruct s as [|c s]; simpl; [discriminate|].
  destruct (c =? " ")%char.
  - intros H. inversion H. lia.
  - destruct (c =? "#")%char; [|discriminate].
    destruct (not_newline_star s) as [|c' r'] eqn:E; [discriminate|].
    intros H. inversion H. subst.
    pose proof (suffix_length _ _ (not_newline_star_suffix s)) as L.
    rewrite E in L. simpl in L. lia.
Qed.

Lemma skip_loop_enough n m s :
  (String.length s <= n)%nat -> (String.length s <= m)%nat ->
  skip_loop n CommentSkipper s = skip_loop m CommentSkipper s.
Proof.
  revert m s. induction n as [|n IH]; intros m s Hn Hm.
  - destruct s; [|simpl in Hn; lia]. destruct m; reflexivity.
  - destruct m as [|m].
    + destruct s; [reflexivity | simpl in Hm; lia].
    + simpl. destruct (CommentSkipper s) as [r|] eqn:E; [|reflexivity].
      apply CommentSkipper_shorter in E. apply IH; lia.
Qed.

(** The loop of [skip_over], without the cut. *)
Lemma skip_over_unfold s :
  skip_over CommentSkipper s =
  match CommentSkipper s with
  | Some r => skip_over CommentSkipper r
  | None => s
  end.
Proof.
  unfold skip_over. destruct s as [|c s]; [reflexivity|].
  cbn [String.length skip_loop].
  destruct (CommentSkipper (String c s)) as [r|] eqn:E; [|reflexivity].
  apply CommentSkipper_shorter in E. simpl in E.
  apply skip_loop_enough; lia.
Qed.

Lemma skip_over_suffix s : suffix (skip_over CommentSkipper s) s.
Proof.
  remember (String.length s) as n eqn:Hn.
  revert s Hn. induction n as [n IH] using lt_wf_ind. intros s Hn.
  rewrite skip_over_unfold.
  destruct (CommentSkipper s) as [r|] eqn:E; [|apply suffix_refl].
  eapply suffix_trans; [|apply CommentSkipper_suffix; exact E].
  apply CommentSkipper_shorter in E. eapply IH; [|reflexivity]. lia.
Qed.

Lemma suffix_skip r s : suffix r (skip_over CommentSkipper s) -> suffix r s.
Proof. intros H. eapply suffix_trans; [exact H | apply skip_over_suffix]. Qed.

(** After skipping, the skipper matches nothing more. *)
Lemma skip_over_stuck s : CommentSkipper (skip_over CommentSkipper s) = None.
Proof.
  remember (String.length s) as n eqn:Hn.
  revert s Hn. induction n as [n IH] using lt_wf_ind. intros s Hn.
  rewrite skip_over_unfold.
  destruct (CommentSkipper s) as [r|] eqn:E; [|exact E].
  apply CommentSkipper_shorter in E. eapply IH; [|reflexivity]. lia.
Qed.

Lemma skip_over_idem s :
  skip_over CommentSkipper (skip_over CommentSkipper s) =
  skip_over CommentSkipper s.
Proof. rewrite skip_over_unfold at 1. now rewrite skip_over_stuck. Qed.

Lemma skip_over_unused s : skip_over unused_skipper s = s.
Proof. unfold skip_over. destruct (String.length s); reflexivity. Qed.

(** ** The symbol grammar *)

Lemma RuleGrammar_start_parse s :
  parse RuleGrammar.start CommentSkipper s =
  match skip_over CommentSkipper s with
  | String c r =>
      match rule_of_char c with
      | Some v => Match v r
      | None => NoMatch (String c r)
      end
  | EmptyString => NoMatch EmptyString
  end.
Proof.
  unfold RuleGrammar.start, RuleGrammar.word, rule_named, alternative,
    symbols, action, lexeme, difference, lit_char, ascii_char_.
  cbn [parse].
  destruct (skip_over CommentSkipper s) as [|c r] eqn:E.
  - reflexivity.
  - assert (H : skip_over CommentSkipper (String c r) = String c r)
      by (rewrite <- E; apply skip_over_idem).
    unfold rule_of_char. cbn [symbols_find RuleTable strip_prefix].
    rewrite (Ascii.eqb_sym "F" c), (Ascii.eqb_sym "f" c).
    destruct (c =? "F")%char eqn:EF.
    + apply Ascii.eqb_eq in EF. subst c. reflexivity.
    + destruct (c =? "f")%char eqn:Ef; [reflexivity|].
      cbn match. rewrite !H, !skip_over_unused.
      destruct (c =? " ")%char eqn:Es.
      * rewrite andb_false_r. reflexivity.
      * rewrite !skip_over_unused.
        destruct (c =? nl)%char eqn:En.
        -- rewrite andb_false_r. reflexivity.
        -- rewrite !skip_over_unused. rewrite !andb_true_r.
           destruct (isascii_ c); reflexivity.
Qed.

Lemma RuleGrammar_start_match s v r :
  parse RuleGrammar.start CommentSkipper s = Match v r ->
  exists c, skip_over CommentSkipper s = String c r /\ rule_of_char c = Some v.
Proof.
  rewrite RuleGrammar_start_parse.
  destruct (skip_over CommentSkipper s) as [|c r0]; [discriminate|].
  destruct (rule_of_char c) as [v0|] eqn:E; [|discriminate].
  intros H. inversion H. subst. now exists c.
Qed.

(** ** Repetition without the cut *)

Section Loops.

Context {A : Type} (p : parser A) (sk : skipper).

(** Every match of [p] consumes at least one character. *)
Hypothesis progress :
  forall s a r, parse p sk s = Match a r ->
    (String.length r < String.length s)%nat.

Lemma kleene_loop_enough n m s :
  (String.length s < n)%nat -> (String.length s < m)%nat ->
  kleene_loop n p sk s = kleene_loop m p sk s.
Proof.
  revert m s. induction n as [|n IH]; intros m s Hn Hm; [lia|].
  destruct m as [|m]; [lia|]. simpl.
  destruct (parse p sk s) as [a r| |] eqn:E; try reflexivity.
  apply progress in E. rewrite (IH m r) by lia. reflexivity.
Qed.

Lemma kleene_from_unfold s :
  kleene_from p sk s =
  match parse p sk s with
  | Match a r =>
      match kleene_from p sk r with
      | Match l r' => Match (a :: l) r'
      | other => other
      end
  | NoMatch pos => Match [] pos
  | ExpectationFailure w e => ExpectationFailure w e
  end.
Proof.
  unfold kleene_from. cbn [kleene_loop].
  destruct (parse p sk s) as [a r| |] eqn:E; try reflexivity.
  apply progress in E.
  rewrite (kleene_loop_enough (String.length s) (S (String.length r)) r)
    by lia.
  reflexivity.
Qed.

Context {B : Type} (sep : parser B).

(** A match of the separator does not give characters back. *)
Hypothesis sep_shrinks :
  forall s b r, parse sep sk s = Match b r ->
    (String.length r <= String.length s)%nat.

Lemma list_loop_enough n m s :
  (String.length s < n)%nat -> (String.length s < m)%nat ->
  list_loop n p sep sk s = list_loop m p sep sk s.
Proof.
  revert m s. induction n as [|n IH]; intros m s Hn Hm; [lia|].
  destruct m as [|m]; [lia|]. simpl.
  destruct (parse sep sk s) as [b r| |] eqn:E; try reflexivity.
  destruct (parse p sk r) as [a r'| |] eqn:E'; try reflexivity.
  apply sep_shrinks in E. apply progress in E'.
  rewrite (IH m r') by lia. reflexivity.
Qed.

Lemma list_from_unfold s :
  list_from p sep sk s =
  match parse sep sk s with
  | Match _ r =>
      match parse p sk r with
      | Match a r' =>
          match list_from p sep sk r' with
          | Match l r'' => Match (a :: l) r''
          | other => other
          end
      | NoMatch _ => Match [] s
      | ExpectationFailure w e => ExpectationFailure w e
      end
  | NoMatch _ => Match [] s
  | ExpectationFailure w e => ExpectationFailure w e
  end.
Proof.
  unfold list_from. cbn [list_loop].
  destruct (parse sep sk s) as [b r| |] eqn:E; try reflexivity.
  destruct (parse p sk r) as [a r'| |] eqn:E'; try reflexivity.
  apply sep_shrinks in E. apply progress in E'.
  rewrite (list_loop_enough (String.length s) (S (String.length r')) r')
    by lia.
  reflexivity.
Qed.

End Loops.

Lemma RuleGrammar_start_progress s a r :
  parse RuleGrammar.start CommentSkipper s = Match a r ->
  (String.length r < String.length s)%nat.
Proof.
  intros H. apply RuleGrammar_start_match in H. destruct H as [c [H _]].
  pose proof (suffix_length _ _ (skip_over_suffix s)) as L.
  rewrite H in L. simpl in L. lia.
Qed.

(** ** Stream entry point *)

Lemma read_all_contents (T : string) :
  LSystemParser.read_all (list_ascii_of_string T) = T.
Proof. induction T as [|c T IH]; simpl; [reflexivity | now rewrite IH]. Qed.

(** C9: for every stream whose contents are the text [T], parsing the
    stream gives what parsing [T] gives: the same [LSystem] when one of
    them returns, and the same error when one of them fails. *)
Theorem parse_stream_delegates (input : LSystemParser.istream) (T : string) :
  LSystemParser.rdbuf input = list_ascii_of_string T ->
  LSystemParser.parse_stream input = LSystemParser.parse T /\
  (forall l, LSystemParser.parse_stream input = Returned l <->
             LSystemParser.parse T = Returned l) /\
  ((exists m, LSystemParser.parse_stream input = DomainError m) <->
   (exists m, LSystemParser.parse T = DomainError m)).
Proof.
  intros H.
  assert (E : LSystemParser.parse_stream input = LSystemParser.parse T).
  { unfold LSystemParser.parse_stream. now rewrite H, read_all_contents. }
  rewrite E. repeat split; auto.
Qed.

Lemma parse_stream_delegates_witness :
  let T := "generations:1 angle:2 scale:3 axiom:F" ++ endl ++ "F -> F f" in
  let input := {| LSystemParser.rdbuf := list_ascii_of_string T |} in
  LSystemParser.parse_stream input = LSystemParser.parse T /\
  LSystemParser.parse T =
    Returned {| generations := 1; angle := 2; scale := 3;
                axiom := [MoveForwardRule];
                productions :=
                  [(MoveForwardRule,
                    [(1%Q, [MoveForwardRule; JumpForwardRule])])] |}.
Proof.
  intros T input. split.
  - exact (proj1 (parse_stream_delegates input T eq_refl)).
  - vm_compute. reflexivity.
Defined.

(** ** Alias resolution *)

(** C6 as stated fails at the character [#]: in front of a symbol a
    comment that ends in a newline is skipped, so the [#] gives no word
    rule. *)
Lemma alias_resolution_counterexample :
  let s := "#c" ++ endl ++ "X" in
  parse RuleGrammar.start CommentSkipper s = Match (WordRule "X") EmptyString /\
  parse RuleGrammar.start CommentSkipper s <>
    Match (WordRule "#") ("c" ++ endl ++ "X").
Proof. split; [vm_compute; reflexivity | vm_compute; discriminate]. Qed.

(** C6 (amended): at a symbol position, that is for the first character
    [c] left after skipping, [F] gives the shared [forward] rule and [f]
    the shared [jump] rule, never a word rule; every other ASCII character
    except the newline gives the word rule of exactly that character; the
    newline and the characters outside ASCII give no symbol.  (A space and
    the [#] of a comment that ends in a newline are never left after
    skipping.) *)
Theorem alias_resolution (s : string) (c : ascii) (rest : string) :
  skip_over CommentSkipper s = String c rest ->
  (c = "F"%char ->
     parse RuleGrammar.start CommentSkipper s = Match MoveForwardRule rest) /\
  (c = "f"%char ->
     parse RuleGrammar.start CommentSkipper s = Match JumpForwardRule rest) /\
  (c <> "F"%char -> c <> "f"%char -> c <> nl -> isascii_ c = true ->
     parse RuleGrammar.start CommentSkipper s =
       Match (WordRule (String c EmptyString)) rest) /\
  (c = nl \/ isascii_ c = false ->
     parse RuleGrammar.start CommentSkipper s = NoMatch (String c rest)).
Proof.
  intros E. rewrite RuleGrammar_start_parse, E.
  assert (Hsp : (c =? " ")%char = false).
  { pose proof (skip_over_stuck s) as K. rewrite E in K. simpl in K.
    destruct (c =? " ")%char; [discriminate | reflexivity]. }
  unfold rule_of_char. split; [|split; [|split]].
  - intros ->. reflexivity.
  - intros ->. reflexivity.
  - intros HF Hf Hn Ha.
    apply Ascii.eqb_neq in HF, Hf, Hn. now rewrite HF, Hf, Hn, Hsp, Ha.
  - intros H.
    destruct (Ascii.eqb_spec c "F") as [->|_];
      [destruct H; discriminate|].
    destruct (Ascii.eqb_spec c "f") as [->|_];
      [destruct H; discriminate|].
    destruct H as [-> | ->]; [reflexivity|].
    reflexivity.
Qed.

Lemma alias_resolution_witness :
  parse RuleGrammar.start CommentSkipper " [F" =
    Match (WordRule "[") "F".
Proof.
  refine (proj1 (proj2 (proj2 (alias_resolution " [F" "["%char "F" _)))
            _ _ _ _);
    try reflexivity; discriminate.
Defined.

(** ** Production lines *)

Lemma production_inv s p r :
  parse ProductionGrammar.production CommentSkipper s = Match p r ->
  exists r1 r2 r3,
    parse ProductionGrammar.rule CommentSkipper s = Match (predcessor p) r1 /\
    parse ProductionGrammar.probability CommentSkipper r1 =
      Match (probability p) r2 /\
    parse (lit "->") CommentSkipper r2 = Match tt r3 /\
    parse (plus ProductionGrammar.rule) CommentSkipper r3 =
      Match (successor p) r.
Proof.
  unfold ProductionGrammar.production, rule_named, action.
  cbn [parse]. unfold expect at 1 2 3. cbn [parse].
  intros H.
  destruct (parse ProductionGrammar.rule CommentSkipper s)
    as [pred r1| |] eqn:E1; try discriminate.
  destruct (parse ProductionGrammar.probability CommentSkipper r1)
    as [pr r2| |] eqn:E2; try discriminate.
  destruct (parse (lit "->") CommentSkipper r2) as [[] r3| |] eqn:E3;
    try discriminate.
  destruct (parse (plus ProductionGrammar.rule) CommentSkipper r3)
    as [succ r4| |] eqn:E4; try discriminate.
  inversion H. subst. cbn. exists r1, r2, r3. auto.
Qed.

(** A probability is the real number between the parentheses or, when
    no parenthesis opens, the attribute [1] of [qi::attr]. *)
Lemma probability_inv s d r :
  parse ProductionGrammar.probability CommentSkipper s = Match d r ->
  (exists r1 r2,
     skip_over CommentSkipper s = String "(" r1 /\
     parse double_ CommentSkipper r1 = Match d r2 /\
     skip_over CommentSkipper r2 = String ")" r) \/
  ((forall r1, skip_over CommentSkipper s <> String "(" r1) /\
   d = 1%Q /\ r = s).
Proof.
  unfold ProductionGrammar.probability, rule_named, alternative, action,
    attr, expect, lit_char.
  cbn [parse what].
  destruct (skip_over CommentSkipper s) as [|b r1] eqn:E.
  - intros H. inversion H. right. split; [discriminate | auto].
  - destruct (Ascii.eqb_spec b "(").
    + subst b.
      destruct (parse double_ CommentSkipper r1) as [d' r2| |] eqn:E2;
        try discriminate.
      destruct (skip_over CommentSkipper r2) as [|b' r3] eqn:E3;
        try discriminate.
      destruct (Ascii.eqb_spec b' ")"); try discriminate.
      subst b'. cbn. intros H. inversion H. subst.
      left. exists r1, r2. auto.
    + intros H. inversion H. right. split; [|auto].
      intros r1' K. inversion K. contradiction.
Qed.

(** C5: a production line on which no parenthesis follows the predecessor
    has probability exactly [1]. *)
Theorem default_probability (s : string) (p : Production) (r : string) :
  parse ProductionGrammar.production CommentSkipper s = Match p r ->
  (forall pred r1 r2,
     parse ProductionGrammar.rule CommentSkipper s = Match pred r1 ->
     skip_over CommentSkipper r1 <> String "(" r2) ->
  probability p = 1%Q.
Proof.
  intros H Hno.
  destruct (production_inv _ _ _ H) as (r1 & r2 & r3 & E1 & E2 & _).
  destruct (probability_inv _ _ _ E2) as [(q1 & q2 & K & _) | (_ & K & _)].
  - exfalso. exact (Hno _ _ _ E1 K).
  - exact K.
Qed.

Lemma default_probability_witness :
  probability
    {| predcessor := MoveForwardRule; probability := 1;
       successor := [MoveForwardRule; WordRule "+"] |} = 1%Q.
Proof.
  apply (default_probability "F -> F+" _ EmptyString).
  - vm_compute. reflexivity.
  - intros pred r1 r2 H. vm_compute in H. inversion H. subst.
    vm_compute. discriminate.
Defined.

(** ** A comment that the end of the input cuts short *)









(** The same on a whole document: the comment text ends up in the last
    successor. *)
Example unterminated_comment_document :
  LSystemParser.parse
    ("generations:5 angle:20 scale:0.6 axiom:F" ++ endl ++ "F -> F #ab") =
  Returned {| generations := 5; angle := 20; scale := 3 # 5;
              axiom := [MoveForwardRule];
              productions :=
                [(MoveForwardRule,
                  [(1%Q, [MoveForwardRule; WordRule "#"; WordRule "a";
                          WordRule "b"])])] |}.
Proof. vm_compute. reflexivity. Qed.

(** ** Production lines with the same predecessor *)

Lemma rule_compare_antisym a b :
  rule_compare a b = CompOpp (rule_compare b a).
Proof.
  destruct a, b; simpl; try reflexivity. apply String.compare_antisym.
Qed.

Lemma RuleComparator_asym a b :
  RuleComparator a b = true -> RuleComparator b a = false.
Proof.
  unfold RuleComparator. rewrite (rule_compare_antisym b a).
  destruct (rule_compare a b); simpl; congruence.
Qed.

Lemma RuleComparator_irrefl a : RuleComparator a a = false.
Proof.
  destruct (RuleComparator a a) eqn:E; [|reflexivity].
  now rewrite (RuleComparator_asym _ _ E) in E.
Qed.

(** A second [insert] under the same key changes nothing, whatever the
    map held before the first. *)
Lemma insert_same_key_dropped k v1 v2 m :
  StdMap.insert (k, v2) (StdMap.insert (k, v1) m) = StdMap.insert (k, v1) m.
Proof.
  induction m as [|[k' v'] m IH]; cbn [StdMap.insert fst].
  - now rewrite RuleComparator_irrefl.
  - destruct (RuleComparator k k') eqn:E1.
    + cbn [StdMap.insert fst]. now rewrite RuleComparator_irrefl.
    + destruct (RuleComparator k' k) eqn:E2; cbn [StdMap.insert fst];
        rewrite E1, E2; [now rewrite IH | reflexivity].
Qed.

(** C1 on the code: of two production lines with the predecessor [F],
    adjacent or not, only the first reaches the table; the map keeps the
    entry it has and the alternative of the later line is dropped. *)
Theorem same_predecessor_second_line_dropped :
  match
    LSystemParser.parse
      ("generations:5 angle:20 scale:0.6 axiom:F" ++ endl ++
       "F (0.5) -> F[+F]F" ++ endl ++
       "F (0.5) -> F[-F]F")
  with
  | Returned l =>
      StdMap.find MoveForwardRule (productions l) =
        Some [(1 # 2, [MoveForwardRule; WordRule "["; WordRule "+";
                       MoveForwardRule; WordRule "]"; MoveForwardRule])]
  | DomainError _ => False
  end /\
  LSystemParser.parse
    ("generations:5 angle:20 scale:0.6 axiom:F" ++ endl ++
     "F (0.5) -> F[+F]F" ++ endl ++
     "F (0.5) -> F[-F]F") =
  Returned {| generations := 5; angle := 20; scale := 3 # 5;
              axiom := [MoveForwardRule];
              productions :=
                [(MoveForwardRule,
                  [(1 # 2, [MoveForwardRule; WordRule "["; WordRule "+";
                            MoveForwardRule; WordRule "]";
                            MoveForwardRule])])] |} /\
  LSystemParser.parse
    ("generations:5 angle:20 scale:0.6 axiom:F" ++ endl ++
     "F (0.5) -> F+" ++ endl ++
     "X -> F" ++ endl ++
     "F (0.5) -> F-") =
  Returned {| generations := 5; angle := 20; scale := 3 # 5;
              axiom := [MoveForwardRule];
              productions :=
                [(MoveForwardRule, [(1 # 2, [MoveForwardRule; WordRule "+"])]);
                 (WordRule "X", [(1%Q, [MoveForwardRule])])] |}.
Proof.
  split; [|split]; vm_compute; reflexivity.
Qed.

(** ** Positions stay inside the input *)

Lemma extract_uint_suffix s acc v n r :
  extract_uint s acc = (v, n, r) -> suffix r s.
Proof.
  revert acc v n r. induction s as [|c s IH]; intros acc v n r H; simpl in H.
  - inversion H. apply suffix_refl.
  - destruct (is_digit c).
    + destruct (extract_uint s (acc * 10 + digit_value c)) as [[v' n'] r']
        eqn:E.
      inversion H. subst. eapply suffix_trans; [|apply suffix_cons].
      eapply IH. exact E.
    + inversion H. apply suffix_refl.
Qed.

Lemma extract_sign_suffix s : suffix (snd (extract_sign s)) s.
Proof.
  destruct s as [|c s]; simpl; [apply suffix_refl|].
  destruct (c =? "-")%char; [apply suffix_cons|].
  destruct (c =? "+")%char; [apply suffix_cons | apply suffix_refl].
Qed.

Lemma extract_int_suffix s n r : extract_int s = Some (n, r) -> suffix r s.
Proof.
  unfold extract_int. pose proof (extract_sign_suffix s) as Hs.
  destruct (extract_sign s) as [neg s1]. simpl in Hs.
  destruct (extract_uint s1 0) as [[v cnt] r'] eqn:E.
  destruct cnt; [discriminate|].
  destruct (_ && _)%bool; [|discriminate].
  intros H. inversion H. subst.
  eapply suffix_trans; [|exact Hs]. eapply extract_uint_suffix. exact E.
Qed.

Lemma extract_exponent_suffix s e r :
  extract_exponent s = Some (e, r) -> suffix r s.
Proof.
  destruct s as [|c s]; simpl.
  - intros H. inversion H. apply suffix_refl.
  - destruct (_ || _)%bool.
    + intros H. eapply suffix_trans; [|apply suffix_cons].
      eapply extract_int_suffix. exact H.
    + intros H. inversion H. apply suffix_refl.
Qed.

Lemma real_finish_suffix neg m fd s d r :
  real_finish neg m fd s = Some (d, r) -> suffix r s.
Proof.
  unfold real_finish.
  destruct (extract_exponent s) as [[ev r0]|] eqn:E; [|discriminate].
  intros H. inversion H. subst. eapply extract_exponent_suffix. exact E.
Qed.

Lemma real_tail_suffix neg n cnt s d r :
  real_tail neg n cnt s = Some (d, r) -> suffix r s.
Proof.
  unfold real_tail. destruct s as [|c s3].
  - destruct cnt; [discriminate | apply real_finish_suffix].
  - destruct (c =? ".")%char.
    + destruct (extract_uint s3 n) as [[m fcnt] s4] eqn:E.
      apply extract_uint_suffix in E.
      intros H.
      assert (K : suffix r s4).
      { destruct cnt, fcnt; try discriminate;
          eapply real_finish_suffix; exact H. }
      eapply suffix_trans; [exact K|].
      eapply suffix_trans; [exact E | apply suffix_cons].
    + destruct cnt; [discriminate | apply real_finish_suffix].
Qed.

Lemma extract_real_suffix s d r : extract_real s = Some (d, r) -> suffix r s.
Proof.
  unfold extract_real. pose proof (extract_sign_suffix s) as Hs.
  destruct (extract_sign s) as [neg s1]. simpl in Hs.
  destruct (extract_uint s1 0) as [[n cnt] s2] eqn:E.
  apply extract_uint_suffix in E. intros H.
  apply real_tail_suffix in H.
  eapply suffix_trans; [exact H|]. eapply suffix_trans; eassumption.
Qed.

Lemma sound_lit str : sound (lit str).
Proof.
  intros s. cbn. destruct (strip_prefix str _) eqn:E.
  - eapply suffix_trans; [|apply skip_over_suffix].
    eapply strip_prefix_suffix. exact E.
  - apply skip_over_suffix.
Qed.

Lemma sound_lit_char c : sound (lit_char c).
Proof.
  intros s. cbn. pose proof (skip_over_suffix s) as H.
  destruct (skip_over CommentSkipper s) as [|b r]; [exact H|].
  destruct (b =? c)%char; [|exact H].
  eapply suffix_trans; [apply suffix_cons | exact H].
Qed.

Lemma sound_int_ : sound int_.
Proof.
  intros s. cbn. destruct (extract_int _) as [[n r]|] eqn:E.
  - eapply suffix_trans; [|apply skip_over_suffix].
    eapply extract_int_suffix. exact E.
  - apply skip_over_suffix.
Qed.

Lemma sound_double_ : sound double_.
Proof.
  intros s. cbn. destruct (extract_real _) as [[n r]|] eqn:E.
  - eapply suffix_trans; [|apply skip_over_suffix].
    eapply extract_real_suffix. exact E.
  - apply skip_over_suffix.
Qed.

Lemma sound_rule : sound RuleGrammar.start.
Proof.
  intros s. rewrite RuleGrammar_start_parse.
  pose proof (skip_over_suffix s) as H.
  destruct (skip_over CommentSkipper s) as [|c r]; [exact H|].
  destruct (rule_of_char c); [|exact H].
  eapply suffix_trans; [apply suffix_cons | exact H].
Qed.

Lemma sound_attr {A} (v : A) : sound (attr v).
Proof. intros s. cbn. apply suffix_refl. Qed.

Lemma sound_action {A B} (f : A -> B) p : sound p -> sound (action f p).
Proof.
  intros Hp s. specialize (Hp s). cbn.
  destruct (parse p CommentSkipper s); exact Hp.
Qed.

Lemma sound_rule_named {A} name (p : parser A) :
  sound p -> sound (rule_named name p).
Proof. intros Hp s. exact (Hp s). Qed.

Lemma sound_alternative {A} (p q : parser A) :
  sound p -> sound q -> sound (alternative p q).
Proof.
  intros Hp Hq s. specialize (Hp s). cbn.
  destruct (parse p CommentSkipper s) as [a r|pos|w e]; try exact Hp.
  specialize (Hq pos).
  destruct (parse q CommentSkipper pos) as [a r|pos'|w e].
  - eapply suffix_trans; eassumption.
  - eapply suffix_trans; eassumption.
  - destruct Hq. split; [assumption | eapply suffix_trans; eassumption].
Qed.

Lemma sound_expect {A B} (p : parser A) (q : parser B) :
  sound p -> sound q -> In (what q) expected_names -> sound (expect p q).
Proof.
  intros Hp Hq Hw s. specialize (Hp s). cbn.
  destruct (parse p CommentSkipper s) as [a r|pos|w e];
    [|apply suffix_refl|exact Hp].
  specialize (Hq r).
  destruct (parse q CommentSkipper r) as [b r'|pos'|w e].
  - eapply suffix_trans; eassumption.
  - split; [exact Hw | eapply suffix_trans; eassumption].
  - destruct Hq. split; [assumption | eapply suffix_trans; eassumption].
Qed.

Lemma sound_kleene_loop {A} (p : parser A) n :
  sound p ->
  forall s,
    match kleene_loop n p CommentSkipper s with
    | Match _ r => suffix r s
    | NoMatch pos => suffix pos s
    | ExpectationFailure w e => In w expected_names /\ suffix e s
    end.
Proof.
  intros Hp. induction n as [|n IH]; intros s; cbn.
  - apply suffix_refl.
  - specialize (Hp s).
    destruct (parse p CommentSkipper s) as [a r|pos|w e]; try exact Hp.
    specialize (IH r).
    destruct (kleene_loop n p CommentSkipper r) as [l r'|pos'|w e].
    + eapply suffix_trans; eassumption.
    + eapply suffix_trans; eassumption.
    + destruct IH. split; [assumption | eapply suffix_trans; eassumption].
Qed.

Lemma sound_plus {A} (p : parser A) : sound p -> sound (plus p).
Proof.
  intros Hp s. unfold plus. cbn [parse]. pose proof (Hp s) as H.
  destruct (parse p CommentSkipper s) as [a r|pos|w e];
    [|apply suffix_refl|exact H].
  pose proof (sound_kleene_loop p (S (String.length r)) Hp r) as K.
  unfold kleene_from.
  destruct (kleene_loop _ p CommentSkipper r) as [l r'|pos'|w e].
  - eapply suffix_trans; eassumption.
  - eapply suffix_trans; eassumption.
  - destruct K. split; [assumption | eapply suffix_trans; eassumption].
Qed.

Lemma sound_list_loop {A B} (p : parser A) (sep : parser B) n :
  sound p -> sound sep ->
  forall s,
    match list_loop n p sep CommentSkipper s with
    | Match _ r => suffix r s
    | NoMatch pos => suffix pos s
    | ExpectationFailure w e => In w expected_names /\ suffix e s
    end.
Proof.
  intros Hp Hsep. induction n as [|n IH]; intros s; cbn.
  - apply suffix_refl.
  - specialize (Hsep s).
    destruct (parse sep CommentSkipper s) as [b r|pos|w e];
      [|apply suffix_refl|exact Hsep].
    specialize (Hp r).
    destruct (parse p CommentSkipper r) as [a r'|pos|w e];
      [|apply suffix_refl|].
    + specialize (IH r').
      assert (Hr' : suffix r' s) by (eapply suffix_trans; eassumption).
      destruct (list_loop n p sep CommentSkipper r') as [l r''|pos'|w e].
      * eapply suffix_trans; eassumption.
      * eapply suffix_trans; eassumption.
      * destruct IH. split; [assumption | eapply suffix_trans; eassumption].
    + destruct Hp. split; [assumption | eapply suffix_trans; eassumption].
Qed.

Lemma sound_list_ {A B} (p : parser A) (sep : parser B) :
  sound p -> sound sep -> sound (list_ p sep).
Proof.
  intros Hp Hsep s. unfold list_. cbn [parse]. pose proof (Hp s) as H.
  destruct (parse p CommentSkipper s) as [a r|pos|w e];
    [|apply suffix_refl|exact H].
  pose proof (sound_list_loop p sep (S (String.length r)) Hp Hsep r) as K.
  unfold list_from.
  destruct (list_loop _ p sep CommentSkipper r) as [l r'|pos'|w e].
  - eapply suffix_trans; eassumption.
  - eapply suffix_trans; eassumption.
  - destruct K. split; [assumption | eapply suffix_trans; eassumption].
Qed.

Ltac expected_name := vm_compute; tauto.

Lemma sound_probability : sound ProductionGrammar.probability.
Proof.
  apply sound_rule_named, sound_alternative; [|apply sound_attr].
  apply sound_action.
  repeat (apply sound_expect; [| |expected_name]);
    auto using sound_lit_char, sound_double_.
Qed.

Lemma sound_production : sound ProductionGrammar.production.
Proof.
  apply sound_rule_named, sound_action.
  repeat (apply sound_expect; [| |expected_name]).
  - exact sound_rule.
  - exact sound_probability.
  - apply sound_lit.
  - apply sound_plus. exact sound_rule.
Qed.

Lemma sound_productions : sound ProductionGrammar.start.
Proof.
  apply sound_rule_named, sound_action, sound_list_;
    [|apply sound_lit_char].
  apply sound_rule_named, sound_action, sound_production.
Qed.

Lemma sound_sequence : sound LSystemGrammar.sequence.
Proof.
  apply sound_action.
  repeat (apply sound_expect; [| |expected_name]);
    try apply sound_lit; try apply sound_lit_char;
    try exact sound_int_; try exact sound_double_.
  - apply sound_plus. exact sound_rule.
  - exact sound_productions.
Qed.

(** ** Error reports *)

Lemma expect_nomatch {A B} (p : parser A) (q : parser B) sk s pos :
  parse (expect p q) sk s = NoMatch pos ->
  exists pos', parse p sk s = NoMatch pos'.
Proof.
  cbn. destruct (parse p sk s) as [a r|pos'|w e]; try discriminate.
  - destruct (parse q sk r); discriminate.
  - intros _. now exists pos'.
Qed.

Lemma action_nomatch {A B} (f : A -> B) (p : parser A) sk s pos :
  parse (action f p) sk s = NoMatch pos -> parse p sk s = NoMatch pos.
Proof.
  cbn. destruct (parse p sk s); try discriminate. intros H. now inversion H.
Qed.

(** The grammar fails softly only at its first component. *)
Lemma sequence_nomatch s pos :
  parse LSystemGrammar.sequence CommentSkipper s = NoMatch pos ->
  strip_prefix "generations:" (skip_over CommentSkipper s) = None.
Proof.
  unfold LSystemGrammar.sequence. intros H.
  apply action_nomatch in H.
  repeat (apply expect_nomatch in H; destruct H as [? H]).
  unfold lit in H. cbn [parse] in H.
  destruct (strip_prefix "generations:" (skip_over CommentSkipper s));
    [discriminate | reflexivity].
Qed.

(** What a failure reports: when the input starts (after skipping) with
    [generations:], the message names the component that was expected and
    quotes the rest of the input from the position of the failure; when it
    does not, the message is the bare prefix. *)
Lemma error_message_shape (s msg : string) :
  LSystemParser.parse s = DomainError msg ->
  (strip_prefix "generations:" (skip_over CommentSkipper s) = None /\
   msg = "Cannot parse lsystem:") \/
  (exists w pos,
     In w expected_names /\ suffix pos s /\
     msg = "Cannot parse lsystem:" ++ LSystemGrammar.error_text w pos).
Proof.
  unfold LSystemParser.parse, parse_range, phrase_parse,
    LSystemGrammar.start.
  pose proof (sound_sequence s) as Hs.
  destruct (parse LSystemGrammar.sequence CommentSkipper s)
    as [l r|pos|w e] eqn:E.
  - discriminate.
  - intros H. inversion H. left. split; [|reflexivity].
    eapply sequence_nomatch. exact E.
  - intros H. inversion H. right. exists w, e. destruct Hs. auto.
Qed.

(** A missing [->] is reported with the name of the literal and the rest
    of the line. *)
Example missing_arrow_reported :
  LSystemParser.parse
    ("generations:5 angle:20 scale:1 axiom:F" ++ endl ++ "F F") =
  DomainError
    ("Cannot parse lsystem:" ++
     LSystemGrammar.error_text (info_value "->") "F").
Proof. vm_compute. reflexivity. Qed.

(** C4 on the code: a document without the first keyword fails, but not
    through an expectation failure; the error handler is never called, the
    error stream stays empty, and the message of the [std::domain_error]
    names no rule and quotes nothing of the input, while the same mistake
    at any later keyword is reported. *)
Theorem first_keyword_failure_unreported :
  let input := "angle:20 scale:0.6 axiom:F" ++ endl ++ "F -> F" in
  LSystemParser.parse input = DomainError "Cannot parse lsystem:" /\
  String.index 0 "angle" "Cannot parse lsystem:" = None /\
  String.index 0 "Expecting" "Cannot parse lsystem:" = None /\
  (forall w pos,
     "Cannot parse lsystem:" <>
     "Cannot parse lsystem:" ++ LSystemGrammar.error_text w pos) /\
  LSystemParser.parse
    ("generations:5 scale:0.6 axiom:F" ++ endl ++ "F -> F") =
  DomainError
    ("Cannot parse lsystem:" ++
     LSystemGrammar.error_text (info_value "angle:")
       ("scale:0.6 axiom:F" ++ endl ++ "F -> F")).
Proof.
  intros input.
  split; [vm_compute; reflexivity|].
  split; [vm_compute; reflexivity|].
  split; [vm_compute; reflexivity|].
  split; [intros w pos H; discriminate H|].
  vm_compute. reflexivity.
Qed.

(** ** What a successful parse has read *)

Lemma expect_match {A B} (p : parser A) (q : parser B) sk s t r :
  parse (expect p q) sk s = Match t r ->
  exists r1, parse p sk s = Match (fst t) r1 /\ parse q sk r1 = Match (snd t) r.
Proof.
  cbn. destruct (parse p sk s) as [a r1| |]; try discriminate.
  destruct (parse q sk r1) as [b r2| |] eqn:E; try discriminate.
  intros H. inversion H. subst. exists r1. auto.
Qed.

Lemma action_match {A B} (f : A -> B) (p : parser A) sk s b r :
  parse (action f p) sk s = Match b r ->
  exists a, parse p sk s = Match a r /\ b = f a.
Proof.
  cbn. destruct (parse p sk s) as [a r1| |]; try discriminate.
  intros H. inversion H. subst. now exists a.
Qed.

Lemma lit_match str s r :
  parse (lit str) CommentSkipper s = Match tt r ->
  strip_prefix str (skip_over CommentSkipper s) = Some r.
Proof.
  cbn. destruct (strip_prefix str _); [|discriminate].
  intros H. now inversion H.
Qed.

Lemma lit_char_match c s r :
  parse (lit_char c) CommentSkipper s = Match tt r ->
  skip_over CommentSkipper s = String c r.
Proof.
  cbn. destruct (skip_over CommentSkipper s) as [|b r']; [discriminate|].
  destruct (Ascii.eqb_spec b c); [|discriminate].
  intros H. inversion H. now subst.
Qed.

Lemma int_match s n r :
  parse int_ CommentSkipper s = Match n r ->
  extract_int (skip_over CommentSkipper s) = Some (n, r).
Proof.
  cbn. destruct (extract_int _) as [[n' r']|]; [|discriminate].
  intros H. now inversion H.
Qed.

Lemma double_match s d r :
  parse double_ CommentSkipper s = Match d r ->
  extract_real (skip_over CommentSkipper s) = Some (d, r).
Proof.
  cbn. destruct (extract_real _) as [[n' r']|]; [|discriminate].
  intros H. now inversion H.
Qed.

Lemma plus_match_nonempty {A} (p : parser A) sk s l r :
  parse (plus p) sk s = Match l r -> l <> [].
Proof.
  unfold plus. cbn [parse].
  destruct (parse p sk s) as [a r1| |]; try discriminate.
  destruct (kleene_from p sk r1); try discriminate.
  intros H. inversion H. discriminate.
Qed.

Lemma sequence_inv s l r :
  parse LSystemGrammar.sequence CommentSkipper s = Match l r ->
  exists rest,
    header_present s (generations l) (angle l) (scale l) (axiom l) rest /\
    parse ProductionGrammar.start CommentSkipper rest =
      Match (productions l) r.
Proof.
  unfold LSystemGrammar.sequence. intros H.
  apply action_match in H. destruct H as [t [H ->]].
  destruct t as [[[[[[[[[u1 g] u2] a] u3] sc] u4] ax] u5] ps].
  apply expect_match in H. destruct H as [r9 [H H10]].
  apply expect_match in H. destruct H as [r8 [H H9]].
  apply expect_match in H. destruct H as [r7 [H H8]].
  apply expect_match in H. destruct H as [r6 [H H7]].
  apply expect_match in H. destruct H as [r5 [H H6]].
  apply expect_match in H. destruct H as [r4 [H H5]].
  apply expect_match in H. destruct H as [r3 [H H4]].
  apply expect_match in H. destruct H as [r2 [H H3]].
  apply expect_match in H. destruct H as [r1 [H1 H2]].
  cbn [fst snd] in *. destruct u1, u2, u3, u4, u5.
  exists r9. split; [|exact H10].
  exists r1, r2, r3, r4, r5, r6, r7, r8.
  unfold LSystemGrammar.build. cbn [generations angle scale axiom].
  split; [now apply lit_match|].
  split; [now apply int_match|].
  split; [now apply lit_match|].
  split; [now apply double_match|].
  split; [now apply lit_match|].
  split; [now apply double_match|].
  split; [now apply lit_match|].
  split; [exact H8|].
  split; [eapply plus_match_nonempty; exact H8|].
  now apply lit_char_match.
Qed.

(** C8: a returned [LSystem] means that all four header fields stood in
    the input, in their order, the axiom line with at least one symbol
    and its newline, and the fields of the result are the values read; an
    input without such a header fails, and nothing is filled in by
    default. *)
Theorem header_mandatory (s : string) :
  (forall l, LSystemParser.parse s = Returned l ->
     exists rest,
       header_present s (generations l) (angle l) (scale l) (axiom l) rest) /\
  ((forall g a sc ax rest, ~ header_present s g a sc ax rest) ->
     exists msg, LSystemParser.parse s = DomainError msg).
Proof.
  assert (K : forall l, LSystemParser.parse s = Returned l ->
     exists rest,
       header_present s (generations l) (angle l) (scale l) (axiom l) rest).
  { unfold LSystemParser.parse, parse_range, phrase_parse,
      LSystemGrammar.start.
    intros l.
    destruct (parse LSystemGrammar.sequence CommentSkipper s)
      as [l' r|pos|w e] eqn:E; try discriminate.
    intros H. inversion H. subst.
    destruct (sequence_inv _ _ _ E) as [rest [Hh _]]. now exists rest. }
  split; [exact K|].
  intros Hno. destruct (LSystemParser.parse s) as [l|msg] eqn:E.
  - destruct (K l eq_refl) as [rest Hh]. exfalso. exact (Hno _ _ _ _ _ Hh).
  - now exists msg.
Qed.

Lemma header_mandatory_witness :
  exists msg,
    LSystemParser.parse
      ("generations:5 scale:0.6 axiom:F" ++ endl ++ "F -> F") =
    DomainError msg.
Proof.
  apply (proj2 (header_mandatory
                  ("generations:5 scale:0.6 axiom:F" ++ endl ++ "F -> F"))).
  intros g a sc ax rest (r1 & r2 & r3 & r4 & r5 & r6 & r7 & r8 &
                         H1 & H2 & H3 & _).
  vm_compute in H1. inversion H1. subst r1.
  vm_compute in H2. inversion H2. subst r2.
  vm_compute in H3. discriminate H3.
Defined.

(** ** Probabilities *)

Lemma In_insert x kv m : In x (StdMap.insert kv m) -> x = kv \/ In x m.
Proof.
  induction m as [|[k' v'] m IH]; cbn [StdMap.insert].
  - intros [H|[]]. now left.
  - destruct (RuleComparator (fst kv) k').
    + intros [H|H]; [now left | now right].
    + destruct (RuleComparator k' (fst kv)); [|now right].
      intros [H|H]; [right; now left|].
      destruct (IH H) as [K|K]; [now left | right; now right].
Qed.

Lemma In_collect x l : In x (ProductionGrammar.collect l) -> In x l.
Proof.
  unfold ProductionGrammar.collect.
  assert (G : forall m, In x (fold_left (fun m kv => StdMap.insert kv m) l m)
                        -> In x m \/ In x l).
  { induction l as [|kv l IH]; intros m H; cbn in H; [now left|].
    destruct (IH _ H) as [K|K]; [|right; now right].
    destruct (In_insert _ _ _ K) as [->|K']; [right; now left | now left]. }
  intros H. destruct (G [] H) as [[]|K]. exact K.
Qed.

Lemma pair_match s kv r :
  parse ProductionGrammar.pair CommentSkipper s = Match kv r ->
  from_line s kv.
Proof.
  unfold ProductionGrammar.pair, rule_named. cbn [parse]. intros H.
  apply action_match in H. destruct H as [p [H ->]].
  exists s, p, r. split; [apply suffix_refl | auto].
Qed.

Lemma from_line_suffix s s' kv : suffix s s' -> from_line s kv -> from_line s' kv.
Proof.
  intros Hs (pos & p & r & H1 & H2 & H3). exists pos, p, r.
  split; [eapply suffix_trans; eassumption | auto].
Qed.

Lemma sound_pair : sound ProductionGrammar.pair.
Proof. apply sound_rule_named, sound_action, sound_production. Qed.

Lemma list_loop_from_line n s l r :
  list_loop n ProductionGrammar.pair (lit_char nl) CommentSkipper s =
    Match l r ->
  Forall (from_line s) l.
Proof.
  revert s l r. induction n as [|n IH]; intros s l r; cbn [list_loop].
  - intros H. inversion H. constructor.
  - pose proof (sound_lit_char nl s) as Hsep.
    destruct (parse (lit_char nl) CommentSkipper s) as [b r1| |];
      try discriminate; [|intros H; inversion H; constructor].
    pose proof (sound_pair r1) as Hp.
    destruct (parse ProductionGrammar.pair CommentSkipper r1)
      as [kv r2| |] eqn:E; try discriminate;
      [|intros H; inversion H; constructor].
    destruct (list_loop n _ _ _ r2) as [l' r3| |] eqn:E'; try discriminate.
    intros H. inversion H. subst. constructor.
    + eapply from_line_suffix; [exact Hsep|]. eapply pair_match. exact E.
    + apply IH in E'. eapply Forall_impl; [|exact E'].
      intros kv'. apply from_line_suffix. eapply suffix_trans; eassumption.
Qed.

Lemma productions_from_line s m r :
  parse ProductionGrammar.start CommentSkipper s = Match m r ->
  forall kv, In kv m -> from_line s kv.
Proof.
  unfold ProductionGrammar.start, rule_named. cbn [parse]. intros H.
  apply action_match in H. destruct H as [l [H ->]].
  unfold list_ in H. cbn [parse] in H.
  pose proof (sound_pair s) as Hp.
  destruct (parse ProductionGrammar.pair CommentSkipper s) as [kv0 r1| |] eqn:E;
    try discriminate.
  unfold list_from in H.
  destruct (list_loop _ _ _ _ r1) as [l' r2| |] eqn:E'; try discriminate.
  inversion H. subst. intros kv Hin. apply In_collect in Hin.
  destruct Hin as [<-|Hin].
  - eapply pair_match. exact E.
  - apply list_loop_from_line in E'. rewrite Forall_forall in E'.
    eapply from_line_suffix; [exact Hp | now apply E'].
Qed.

(** C7 as stated fails: the number between the parentheses is stored as
    it is read, here [5]. *)
Lemma probability_range_counterexample :
  LSystemParser.parse
    ("generations:5 angle:20 scale:0.6 axiom:F" ++ endl ++ "X (5) -> F") =
  Returned {| generations := 5; angle := 20; scale := 3 # 5;
              axiom := [MoveForwardRule];
              productions := [(WordRule "X", [(5%Q, [MoveForwardRule])])] |} /\
  ~ (0 < 5 /\ 5 <= 1)%Q.
Proof.
  split; [vm_compute; reflexivity|].
  intros [_ H]. vm_compute in H. apply H. reflexivity.
Qed.

(** C7 (amended): every entry of the table of a returned [LSystem]
    comes from a production line of the input, and its probability is
    what that line says: the default [1] when no parenthesis follows the
    predecessor of the line, and otherwise the real number that
    [qi::double_] reads between the parentheses of the line.  The number
    is stored as it is read; no range is checked. *)
Theorem probability_unchecked (s : string) (l : LSystem) :
  LSystemParser.parse s = Returned l ->
  forall k prods d succ,
    In (k, prods) (productions l) -> In (d, succ) prods ->
    exists pos r1 r2 r3 r,
      suffix pos s /\
      parse ProductionGrammar.rule CommentSkipper pos = Match k r1 /\
      ((forall z, skip_over CommentSkipper r1 <> String "(" z) /\
       d = 1%Q /\ r2 = r1 \/
       exists z r',
         skip_over CommentSkipper r1 = String "(" z /\
         parse double_ CommentSkipper z = Match d r' /\
         skip_over CommentSkipper r' = String ")" r2) /\
      parse (lit "->") CommentSkipper r2 = Match tt r3 /\
      parse (plus ProductionGrammar.rule) CommentSkipper r3 = Match succ r.
Proof.
  unfold LSystemParser.parse, parse_range, phrase_parse,
    LSystemGrammar.start.
  pose proof (sound_sequence s) as Hs.
  destruct (parse LSystemGrammar.sequence CommentSkipper s)
    as [l' r|pos|w e] eqn:E; try discriminate.
  intros H. inversion H. subst l'. clear H.
  destruct (sequence_inv _ _ _ E) as [rest [Hh Hp]].
  assert (Hrest : suffix rest s).
  { destruct Hh as (r1 & r2 & r3 & r4 & r5 & r6 & r7 & r8 &
                    H1 & H2 & H3 & H4 & H5 & H6 & H7 & H8 & _ & H9).
    apply strip_prefix_suffix, suffix_skip in H1, H3, H5, H7.
    apply extract_int_suffix, suffix_skip in H2.
    apply extract_real_suffix, suffix_skip in H4, H6.
    pose proof (sound_plus _ sound_rule r7) as K. rewrite H8 in K.
    assert (K9 : suffix rest r8).
    { eapply suffix_trans; [apply suffix_cons|].
      rewrite <- H9. apply skip_over_suffix. }
    apply (suffix_trans _ r8); [exact K9|].
    apply (suffix_trans _ r7); [exact K|].
    apply (suffix_trans _ r6); [exact H7|].
    apply (suffix_trans _ r5); [exact H6|].
    apply (suffix_trans _ r4); [exact H5|].
    apply (suffix_trans _ r3); [exact H4|].
    apply (suffix_trans _ r2); [exact H3|].
    apply (suffix_trans _ r1); [exact H2 | exact H1]. }
  intros k prods d succ Hin Hd.
  destruct (productions_from_line _ _ _ Hp _ Hin)
    as (pos & p & r' & Hpos & Hprod & Hkv).
  unfold ProductionFactory in Hkv. inversion Hkv. subst k prods.
  destruct Hd as [Hd|[]]. inversion Hd. subst d succ.
  destruct (production_inv _ _ _ Hprod) as (q1 & q2 & q3 & E1 & E2 & E3 & E4).
  exists pos, q1, q2, q3, r'.
  split; [eapply suffix_trans; [exact Hpos | exact Hrest]|].
  split; [exact E1|].
  split; [|split; [exact E3 | exact E4]].
  destruct (probability_inv _ _ _ E2)
    as [(t1 & t2 & K1 & K2 & K3) | (K1 & K2 & K3)].
  - right. exists t1, t2. auto.
  - left. auto.
Qed.

Lemma probability_unchecked_witness :
  exists pos r1 r2 r3 r,
    suffix pos
      ("generations:5 angle:20 scale:0.6 axiom:F" ++ endl ++ "X (5) -> F") /\
    parse ProductionGrammar.rule CommentSkipper pos =
      Match (WordRule "X") r1 /\
    ((forall z, skip_over CommentSkipper r1 <> String "(" z) /\
     5%Q = 1%Q /\ r2 = r1 \/
     exists z r',
       skip_over CommentSkipper r1 = String "(" z /\
       parse double_ CommentSkipper z = Match 5%Q r' /\
       skip_over CommentSkipper r' = String ")" r2) /\
    parse (lit "->") CommentSkipper r2 = Match tt r3 /\
    parse (plus ProductionGrammar.rule) CommentSkipper r3 =
      Match [MoveForwardRule] r.
Proof.
  refine (probability_unchecked
            ("generations:5 angle:20 scale:0.6 axiom:F" ++ endl ++ "X (5) -> F")
            {| generations := 5; angle := 20; scale := 3 # 5;
               axiom := [MoveForwardRule];
               productions := [(WordRule "X", [(5%Q, [MoveForwardRule])])] |}
            _ (WordRule "X") [(5%Q, [MoveForwardRule])] 5%Q [MoveForwardRule]
            _ _).
  - vm_compute. reflexivity.
  - left. reflexivity.
  - left. reflexivity.
Defined.

(** ** Building a parse from its parts *)

Lemma expect_intro {A B} (p : parser A) (q : parser B) sk s a r1 b r :
  parse p sk s = Match a r1 -> parse q sk r1 = Match b r ->
  parse (expect p q) sk s = Match (a, b) r.
Proof. intros H1 H2. cbn. now rewrite H1, H2. Qed.

Lemma action_intro {A B} (f : A -> B) (p : parser A) sk s a r :
  parse p sk s = Match a r -> parse (action f p) sk s = Match (f a) r.
Proof. intros H. cbn. now rewrite H. Qed.

Lemma lit_intro str s r :
  strip_prefix str (skip_over CommentSkipper s) = Some r ->
  parse (lit str) CommentSkipper s = Match tt r.
Proof. intros H. cbn. now rewrite H. Qed.

Lemma lit_char_intro c s r :
  skip_over CommentSkipper s = String c r ->
  parse (lit_char c) CommentSkipper s = Match tt r.
Proof. intros H. cbn. now rewrite H, Ascii.eqb_refl. Qed.

Lemma int_intro s n r :
  extract_int (skip_over CommentSkipper s) = Some (n, r) ->
  parse int_ CommentSkipper s = Match n r.
Proof. intros H. cbn. now rewrite H. Qed.

Lemma double_intro s d r :
  extract_real (skip_over CommentSkipper s) = Some (d, r) ->
  parse double_ CommentSkipper s = Match d r.
Proof. intros H. cbn. now rewrite H. Qed.

(** The converse of [sequence_inv]. *)
Lemma sequence_intro s g a sc ax rest m r :
  header_present s g a sc ax rest ->
  parse ProductionGrammar.start CommentSkipper rest = Match m r ->
  parse LSystemGrammar.sequence CommentSkipper s =
    Match {| generations := g; angle := a; scale := sc; axiom := ax;
             productions := m |} r.
Proof.
  intros (r1 & r2 & r3 & r4 & r5 & r6 & r7 & r8 &
          H1 & H2 & H3 & H4 & H5 & H6 & H7 & H8 & _ & H9) Hp.
  unfold LSystemGrammar.sequence.
  apply lit_intro in H1, H3, H5, H7. apply int_intro in H2.
  apply double_intro in H4, H6. apply lit_char_intro in H9.
  pose proof (expect_intro _ _ _ _ _ _ _ _ H1 H2) as K.
  pose proof (expect_intro _ _ _ _ _ _ _ _ K H3) as K3.
  pose proof (expect_intro _ _ _ _ _ _ _ _ K3 H4) as K4.
  pose proof (expect_intro _ _ _ _ _ _ _ _ K4 H5) as K5.
  pose proof (expect_intro _ _ _ _ _ _ _ _ K5 H6) as K6.
  pose proof (expect_intro _ _ _ _ _ _ _ _ K6 H7) as K7.
  pose proof (expect_intro _ _ _ _ _ _ _ _ K7 H8) as K8.
  pose proof (expect_intro _ _ _ _ _ _ _ _ K8 H9) as K9.
  pose proof (expect_intro _ _ _ _ _ _ _ _ K9 Hp) as K10.
  exact (action_intro LSystemGrammar.build _ _ _ _ _ K10).
Qed.

(** A match of the grammar is all that [parse] asks for. *)
Lemma sequence_match_returns s l r :
  parse LSystemGrammar.sequence CommentSkipper s = Match l r ->
  LSystemParser.parse s = Returned l /\
  fst (phrase_parse s) = Some (l, skip_over CommentSkipper r).
Proof.
  intros H.
  unfold LSystemParser.parse, parse_range, phrase_parse,
    LSystemGrammar.start.
  rewrite H. split; reflexivity.
Qed.

Lemma production_progress s p r :
  parse ProductionGrammar.production CommentSkipper s = Match p r ->
  (String.length r < String.length s)%nat.
Proof.
  intros H. destruct (production_inv _ _ _ H) as (r1 & r2 & r3 & E1 & E2 & E3 & E4).
  apply RuleGrammar_start_progress in E1.
  pose proof (sound_probability r1) as K2. rewrite E2 in K2.
  pose proof (sound_lit "->" r2) as K3. rewrite E3 in K3.
  pose proof (sound_plus _ sound_rule r3) as K4.
  unfold ProductionGrammar.rule in E4. rewrite E4 in K4.
  apply suffix_length in K2, K3, K4. lia.
Qed.

Lemma pair_progress s kv r :
  parse ProductionGrammar.pair CommentSkipper s = Match kv r ->
  (String.length r < String.length s)%nat.
Proof.
  unfold ProductionGrammar.pair, rule_named. cbn [parse]. intros H.
  apply action_match in H. destruct H as [p [H _]].
  eapply production_progress. exact H.
Qed.

Lemma newline_shrinks s b r :
  parse (lit_char nl) CommentSkipper s = Match b r ->
  (String.length r <= String.length s)%nat.
Proof.
  intros H. pose proof (sound_lit_char nl s) as K. rewrite H in K.
  now apply suffix_length.
Qed.

(** A newline that no symbol follows ends the production block: the
    separator is given back and the rest of the input is left unread. *)
Lemma block_ends_at_blank_line r r1 pos :
  skip_over CommentSkipper r = String nl r1 ->
  parse RuleGrammar.start CommentSkipper r1 = NoMatch pos ->
  list_from ProductionGrammar.pair (lit_char nl) CommentSkipper r =
    Match [] r.
Proof.
  intros H1 H2.
  rewrite (list_from_unfold _ _ pair_progress _ newline_shrinks).
  rewrite (lit_char_intro _ _ _ H1).
  unfold ProductionGrammar.pair, ProductionGrammar.production, rule_named,
    action, expect, ProductionGrammar.rule.
  cbn [parse]. rewrite H2. reflexivity.
Qed.

(** ** Input after the document *)

(** C2 as stated fails: after a complete document and a blank line the
    rest of the input is left unread and the [LSystem] of the prefix is
    returned. *)
Lemma trailing_content_counterexample :
  LSystemParser.parse
    ("generations:5 angle:20 scale:0.6 axiom:F" ++ endl ++ "F -> F"
     ++ endl ++ endl ++ "X") =
  Returned {| generations := 5; angle := 20; scale := 3 # 5;
              axiom := [MoveForwardRule];
              productions := [(MoveForwardRule, [(1%Q, [MoveForwardRule])])] |} /\
  fst (phrase_parse
    ("generations:5 angle:20 scale:0.6 axiom:F" ++ endl ++ "F -> F"
     ++ endl ++ endl ++ "X")) =
  Some ({| generations := 5; angle := 20; scale := 3 # 5;
           axiom := [MoveForwardRule];
           productions := [(MoveForwardRule, [(1%Q, [MoveForwardRule])])] |},
        endl ++ endl ++ "X").
Proof.
  split; vm_compute; reflexivity.
Qed.

(** ** Comment transparency

    The run of the parser on an input is compared with its run on the
    same input with one item of the skipper inserted.  While the
    insertion point is ahead, every token reads the same characters in
    both runs and stops in front of the same character or in front of the
    inserted item; as soon as a skip passes the insertion point, both runs
    stand at the same position. *)

Lemma comments_closed_tail c q :
  comments_closed (String c q) = true -> comments_closed q = true.
Proof.
  simpl. destruct (c =? "#")%char; [|auto].
  intros H. apply andb_true_iff in H. tauto.
Qed.

Lemma comments_closed_suffix r q :
  suffix r q -> comments_closed q = true -> comments_closed r = true.
Proof.
  intros [a ->]. induction a as [|c a IH]; [auto|].
  intros H. apply IH. eapply comments_closed_tail. exact H.
Qed.

Lemma not_newline_star_app s c r z :
  not_newline_star s = String c r ->
  not_newline_star (s ++ z) = String c (r ++ z).
Proof.
  induction s as [|x s IH]; simpl; [discriminate|].
  destruct (x =? nl)%char.
  - intros H. inversion H. reflexivity.
  - exact IH.
Qed.

Lemma append_inv_tail (a b z : string) : a ++ z = b ++ z -> a = b.
Proof.
  revert b. induction a as [|x a IH]; intros b H.
  - destruct b as [|y b]; [reflexivity|].
    apply (f_equal String.length) in H. simpl in H.
    rewrite length_append in H. lia.
  - destruct b as [|y b].
    + apply (f_equal String.length) in H. simpl in H.
      rewrite length_append in H. lia.
    + simpl in H. inversion H. f_equal. now apply IH.
Qed.

(** *** Tokens do not look past a space, a [#] or a newline *)

Lemma extract_uint_length s acc v n r :
  extract_uint s acc = (v, n, r) ->
  String.length s = (n + String.length r)%nat.
Proof.
  revert acc v n r. induction s as [|c s IH]; intros acc v n r H; simpl in H.
  - inversion H. reflexivity.
  - destruct (is_digit c).
    + destruct (extract_uint s (acc * 10 + digit_value c)) as [[v' n'] r']
        eqn:E.
      inversion H. subst. simpl. f_equal. eapply IH. exact E.
    + inversion H. reflexivity.
Qed.

Lemma extract_uint_stopper z acc :
  stopper_head z -> extract_uint z acc = (acc, O, z).
Proof. intros (c & t & -> & [-> | [-> | ->]]); reflexivity. Qed.

Lemma extract_uint_none s acc v r :
  extract_uint s acc = (v, O, r) -> v = acc /\ r = s.
Proof.
  destruct s as [|c s]; simpl.
  - intros H. inversion H. auto.
  - destruct (is_digit c).
    + destruct (extract_uint s _) as [[v' n'] r']. discriminate.
    + intros H. inversion H. auto.
Qed.

Lemma extract_uint_local w z acc v n r :
  extract_uint (w ++ z) acc = (v, n, r) ->
  (String.length z <= String.length r)%nat ->
  exists w2, r = w2 ++ z /\
    forall z', stopper_head z' ->
      extract_uint (w ++ z') acc = (v, n, w2 ++ z').
Proof.
  revert acc v n r. induction w as [|c w IH]; intros acc v n r H L.
  - simpl in H. pose proof (extract_uint_length _ _ _ _ _ H) as K.
    assert (n = O) by lia. subst n.
    apply extract_uint_none in H. destruct H as [-> ->].
    exists EmptyString. split; [reflexivity|].
    intros z' Hz. simpl. now apply extract_uint_stopper.
  - simpl in H. destruct (is_digit c) eqn:D.
    + destruct (extract_uint (w ++ z) (acc * 10 + digit_value c))
        as [[v' n'] r'] eqn:E.
      inversion H. subst.
      destruct (IH _ _ _ _ E L) as [w2 [-> K]].
      exists w2. split; [reflexivity|].
      intros z' Hz. simpl. rewrite D, (K z' Hz). reflexivity.
    + inversion H. subst. exists (String c w). split; [reflexivity|].
      intros z' Hz. simpl. now rewrite D.
Qed.

Lemma strip_prefix_local str w z r :
  strip_prefix str (w ++ z) = Some r ->
  (String.length z <= String.length r)%nat ->
  exists w2, r = w2 ++ z /\
    forall z', strip_prefix str (w ++ z') = Some (w2 ++ z').
Proof.
  revert w r. induction str as [|a str IH]; intros w r H L.
  - simpl in H. inversion H. exists w. auto.
  - destruct w as [|c w].
    + apply strip_prefix_append in H. simpl in H. subst z.
      simpl in L. rewrite length_append in L. lia.
    + simpl in H. destruct (a =? c)%char eqn:E; [|discriminate].
      destruct (IH _ _ H L) as [w2 [-> K]].
      exists w2. split; [reflexivity|].
      intros z'. simpl. now rewrite E.
Qed.

Lemma extract_sign_local w z neg r :
  extract_sign (w ++ z) = (neg, r) ->
  (String.length z <= String.length r)%nat ->
  exists w2, r = w2 ++ z /\
    forall z', stopper_head z' -> extract_sign (w ++ z') = (neg, w2 ++ z').
Proof.
  intros H L. destruct w as [|c w].
  - simpl in H.
    assert (neg = false /\ r = z) as [-> ->].
    { destruct z as [|c z]; simpl in H; [now inversion H|].
      destruct (c =? "-")%char; [inversion H; subst; simpl in L; lia|].
      destruct (c =? "+")%char; [inversion H; subst; simpl in L; lia|].
      now inversion H. }
    exists EmptyString. split; [reflexivity|].
    intros z' (c & t & -> & [-> | [-> | ->]]); reflexivity.
  - simpl in H. destruct (c =? "-")%char eqn:E1.
    + inversion H. subst. exists w. split; [reflexivity|].
      intros z' _. simpl. now rewrite E1.
    + destruct (c =? "+")%char eqn:E2.
      * inversion H. subst. exists w. split; [reflexivity|].
        intros z' _. simpl. now rewrite E1, E2.
      * inversion H. subst. exists (String c w). split; [reflexivity|].
        intros z' _. simpl. now rewrite E1, E2.
Qed.

Lemma extract_int_local w z n r :
  extract_int (w ++ z) = Some (n, r) ->
  (String.length z <= String.length r)%nat ->
  exists w2, r = w2 ++ z /\
    forall z', stopper_head z' -> extract_int (w ++ z') = Some (n, w2 ++ z').
Proof.
  unfold extract_int. intros H L.
  destruct (extract_sign (w ++ z)) as [neg s1] eqn:Es.
  destruct (extract_uint s1 0) as [[v cnt] r1] eqn:Eu.
  destruct cnt as [|cnt]; [discriminate|].
  destruct ((int_min <=? (if neg then - v else v)) &&
            ((if neg then - v else v) <=? int_max))%Z eqn:Er; [|discriminate].
  inversion H. subst r1 n. clear H.
  assert (L1 : (String.length z <= String.length s1)%nat).
  { pose proof (suffix_length _ _ (extract_uint_suffix _ _ _ _ _ Eu)). lia. }
  destruct (extract_sign_local _ _ _ _ Es L1) as [w1 [-> Ks]].
  destruct (extract_uint_local _ _ _ _ _ _ Eu L) as [w2 [-> Ku]].
  exists w2. split; [reflexivity|].
  intros z' Hz. rewrite (Ks z' Hz), (Ku z' Hz), Er. reflexivity.
Qed.

Lemma extract_exponent_local w z ev r :
  extract_exponent (w ++ z) = Some (ev, r) ->
  (String.length z <= String.length r)%nat ->
  exists w2, r = w2 ++ z /\
    forall z', stopper_head z' ->
      extract_exponent (w ++ z') = Some (ev, w2 ++ z').
Proof.
  intros H L. destruct w as [|c w].
  - simpl in H.
    assert (ev = 0%Z /\ r = z) as [-> ->].
    { destruct z as [|c z]; simpl in H; [now inversion H|].
      destruct ((c =? "e")%char || (c =? "E")%char)%bool.
      - apply extract_int_suffix, suffix_length in H. simpl in L. lia.
      - now inversion H. }
    exists EmptyString. split; [reflexivity|].
    intros z' (c & t & -> & [-> | [-> | ->]]); reflexivity.
  - simpl in H.
    destruct ((c =? "e")%char || (c =? "E")%char)%bool eqn:E.
    + destruct (extract_int_local _ _ _ _ H L) as [w2 [-> K]].
      exists w2. split; [reflexivity|].
      intros z' Hz. simpl. rewrite E. now apply K.
    + inversion H. subst. exists (String c w). split; [reflexivity|].
      intros z' _. simpl. now rewrite E.
Qed.

Lemma real_finish_local neg m fd w z d r :
  real_finish neg m fd (w ++ z) = Some (d, r) ->
  (String.length z <= String.length r)%nat ->
  exists w2, r = w2 ++ z /\
    forall z', stopper_head z' ->
      real_finish neg m fd (w ++ z') = Some (d, w2 ++ z').
Proof.
  unfold real_finish. intros H L.
  destruct (extract_exponent (w ++ z)) as [[ev r0]|] eqn:E; [|discriminate].
  inversion H. subst r0 d. clear H.
  destruct (extract_exponent_local _ _ _ _ E L) as [w2 [-> K]].
  exists w2. split; [reflexivity|].
  intros z' Hz. now rewrite (K z' Hz).
Qed.

Lemma real_tail_local neg n cnt w z d r :
  real_tail neg n cnt (w ++ z) = Some (d, r) ->
  (String.length z <= String.length r)%nat ->
  exists w2, r = w2 ++ z /\
    forall z', stopper_head z' ->
      real_tail neg n cnt (w ++ z') = Some (d, w2 ++ z').
Proof.
  intros H L. destruct w as [|c w].
  - (* the digits end where [z] starts: nothing of [z] is consumed *)
    assert (K : real_finish neg n O z = Some (d, r) /\ cnt <> O /\
                forall z', stopper_head z' ->
                  real_tail neg n cnt z' = real_finish neg n O z').
    { cbn [append] in H. unfold real_tail in H.
      destruct z as [|c z].
      - destruct cnt; [discriminate|]. split; [exact H|]. split; [discriminate|].
        intros z' (c & t & -> & [-> | [-> | ->]]); reflexivity.
      - destruct (c =? ".")%char.
        + exfalso. destruct (extract_uint z n) as [[m fcnt] s4] eqn:E.
          apply extract_uint_suffix, suffix_length in E.
          assert (K : suffix r s4).
          { destruct cnt, fcnt; try discriminate;
              eapply real_finish_suffix; exact H. }
          apply suffix_length in K. simpl in L. lia.
        + destruct cnt; [discriminate|]. split; [exact H|].
          split; [discriminate|].
          intros z' (c' & t & -> & [-> | [-> | ->]]); reflexivity. }
    destruct K as (K1 & K2 & K3).
    destruct (real_finish_local neg n O EmptyString z d r K1 L) as [w2 [-> K]].
    exists w2. split; [reflexivity|].
    intros z' Hz. cbn [append]. rewrite (K3 z' Hz). now apply (K z').
  - cbn [append] in H. unfold real_tail in H.
    destruct (c =? ".")%char eqn:Ec.
    + destruct (extract_uint (w ++ z) n) as [[m fcnt] s4] eqn:E.
      assert (H' : real_finish neg m fcnt s4 = Some (d, r) /\
                   (cnt <> O \/ fcnt <> O)).
      { destruct cnt, fcnt; try discriminate; split; auto. }
      destruct H' as [H' Hc].
      assert (L4 : (String.length z <= String.length s4)%nat).
      { pose proof (suffix_length _ _ (real_finish_suffix _ _ _ _ _ _ H')).
        lia. }
      destruct (extract_uint_local _ _ _ _ _ _ E L4) as [w4 [-> K4]].
      destruct (real_finish_local _ _ _ _ _ _ _ H' L) as [w2 [-> K]].
      exists w2. split; [reflexivity|].
      intros z' Hz. cbn [append]. unfold real_tail.
      rewrite Ec, (K4 z' Hz).
      destruct cnt, fcnt; try (now apply K). destruct Hc; congruence.
    + destruct cnt as [|cnt]; [discriminate|].
      destruct (real_finish_local neg n O (String c w) z d r H L)
        as [w2 [-> K]].
      exists w2. split; [reflexivity|].
      intros z' Hz. cbn [append]. unfold real_tail. rewrite Ec.
      now apply (K z').
Qed.

Lemma extract_real_local w z d r :
  extract_real (w ++ z) = Some (d, r) ->
  (String.length z <= String.length r)%nat ->
  exists w2, r = w2 ++ z /\
    forall z', stopper_head z' ->
      extract_real (w ++ z') = Some (d, w2 ++ z').
Proof.
  unfold extract_real. intros H L.
  destruct (extract_sign (w ++ z)) as [neg s1] eqn:Es.
  destruct (extract_uint s1 0) as [[n cnt] s2] eqn:Eu.
  assert (L2 : (String.length z <= String.length s2)%nat).
  { pose proof (suffix_length _ _ (real_tail_suffix _ _ _ _ _ _ H)). lia. }
  assert (L1 : (String.length z <= String.length s1)%nat).
  { pose proof (suffix_length _ _ (extract_uint_suffix _ _ _ _ _ Eu)). lia. }
  destruct (extract_sign_local _ _ _ _ Es L1) as [w1 [-> Ks]].
  destruct (extract_uint_local _ _ _ _ _ _ Eu L2) as [w2 [-> Ku]].
  destruct (real_tail_local _ _ _ _ _ _ _ H L) as [w3 [-> K]].
  exists w3. split; [reflexivity|].
  intros z' Hz. rewrite (Ks z' Hz), (Ku z' Hz).
  now apply K.
Qed.

(** *** The grammar as a term, and the tokens of a run *)

(** The term is the grammar of the parser. *)
Lemma interp_lsystem : interp Syntax.lsystem = LSystemGrammar.sequence.
Proof. reflexivity. Qed.

Section Transparency.

(** The text [e] that follows the position of the insertion, and the
    inserted text [ins]: one item of the skipper. *)
Variable e ins : string.
Hypothesis ins_item : forall z, CommentSkipper (ins ++ z) = Some z.

Lemma ins_head :
  exists c t, ins = String c t /\ (c = " "%char \/ c = "#"%char).
Proof.
  pose proof (ins_item EmptyString) as H.
  destruct ins as [|c t]; [discriminate|].
  exists c, t. split; [reflexivity|]. simpl in H.
  destruct (Ascii.eqb_spec c " "); [now left|].
  destruct (Ascii.eqb_spec c "#"); [now right | discriminate].
Qed.

Lemma skip_over_ins z :
  skip_over CommentSkipper (ins ++ z) = skip_over CommentSkipper z.
Proof. now rewrite skip_over_unfold, ins_item. Qed.

Lemma related_stuck_related x y : related_stuck e ins x y -> related e ins x y.
Proof.
  intros [H | (c & q & Hq & Hs & Hh & -> & ->)]; [now left|].
  right. exists (String c q). split; [|auto].
  simpl. apply Ascii.eqb_neq in Hh. now rewrite Hh.
Qed.

Lemma skip_over_related_aux n :
  forall q, (String.length q < n)%nat -> comments_closed q = true ->
  related_stuck e ins (skip_over CommentSkipper (q ++ e))
                (skip_over CommentSkipper (q ++ ins ++ e)).
Proof.
  induction n as [|n IH]; intros q Hn Hq; [lia|].
  destruct q as [|c q].
  - left. simpl. now rewrite skip_over_ins.
  - rewrite (skip_over_unfold (String c q ++ e)).
    rewrite (skip_over_unfold (String c q ++ ins ++ e)).
    cbn [append CommentSkipper].
    destruct (Ascii.eqb_spec c " ") as [->|Hs].
    + apply IH; [simpl in Hn; lia|]. eapply comments_closed_tail. exact Hq.
    + destruct (Ascii.eqb_spec c "#") as [->|Hh].
      * simpl in Hq. apply andb_true_iff in Hq. destruct Hq as [Hnl Hq].
        unfold has_newline in Hnl.
        destruct (not_newline_star q) as [|c' r] eqn:E; [discriminate|].
        rewrite (not_newline_star_app _ _ _ e E).
        rewrite (not_newline_star_app _ _ _ (ins ++ e) E).
        pose proof (not_newline_star_suffix q) as Hsuf. rewrite E in Hsuf.
        assert (Hr : suffix r q).
        { eapply suffix_trans; [apply suffix_cons | exact Hsuf]. }
        apply IH.
        -- apply suffix_length in Hsuf. simpl in Hsuf, Hn. lia.
        -- eapply comments_closed_suffix; eassumption.
      * right. exists c, q. repeat split; auto.
        eapply comments_closed_tail. exact Hq.
Qed.

Lemma skip_over_related x y :
  related e ins x y ->
  related_stuck e ins (skip_over CommentSkipper x) (skip_over CommentSkipper y).
Proof.
  intros [->|(q & Hq & -> & ->)]; [now left|].
  apply (skip_over_related_aux (S (String.length q))); auto.
Qed.

Lemma ins_stopper z : stopper_head (ins ++ z).
Proof.
  destruct ins_head as (c & t & -> & [H|H]); exists c, (t ++ z); auto.
Qed.

Lemma clear_of_app sp1 sp2 :
  clear_of e (sp1 ++ sp2) = true ->
  clear_of e sp1 = true /\ clear_of e sp2 = true.
Proof.
  unfold clear_of. rewrite forallb_app. apply andb_true_iff.
Qed.

Lemma clear_of_head st en sp :
  clear_of e ((st, en) :: sp) = true ->
  (String.length e < String.length st)%nat ->
  (String.length e <= String.length en)%nat.
Proof.
  unfold clear_of. cbn [forallb strictly_inside fst snd]. intros H L.
  apply andb_true_iff in H. destruct H as [H _].
  apply negb_true_iff, andb_false_iff in H.
  destruct H as [H|H]; apply Nat.ltb_ge in H; simpl in H; lia.
Qed.

Lemma token_stable_match {A} (p : parser A) E :
  token_of p E -> local_extractor E -> extractor_suffix E ->
  stable_match e ins p (spans (Token p)).
Proof.
  intros Ht Hl Hs x y a r Hrel Hx Hclear.
  cbn [spans] in Hclear. rewrite Hx in Hclear.
  rewrite Ht in Hx. rewrite Ht.
  destruct (skip_over_related _ _ Hrel)
    as [Heq | (c & q & Hq & Hsp & Hh & Ex & Ey)].
  - rewrite <- Heq. exists r. split; [exact Hx | now left].
  - rewrite Ex in Hx. rewrite Ey.
    destruct (E (String c (q ++ e))) as [[v r0]|] eqn:EE; [|discriminate].
    inversion Hx. subst v r0. clear Hx.
    assert (L : (String.length e <= String.length r)%nat).
    { apply (clear_of_head _ _ _ Hclear). rewrite Ex. simpl.
      rewrite length_append. lia. }
    destruct (Hl (String c q) e a r EE L) as [w2 [-> K]].
    specialize (K (ins ++ e) (ins_stopper e)). cbn [append] in K.
    rewrite K. exists (w2 ++ ins ++ e). split; [reflexivity|].
    right. exists w2. split; [|auto].
    apply Hs in EE. destruct EE as [pre Hpre].
    change (String c (q ++ e)) with (String c q ++ e) in Hpre.
    rewrite <- append_assoc in Hpre. apply append_inv_tail in Hpre.
    apply (comments_closed_suffix w2 (String c q)).
    + exists pre. exact Hpre.
    + simpl. apply Ascii.eqb_neq in Hh. now rewrite Hh.
Qed.

Lemma token_stable_nomatch {A} (p : parser A) E :
  token_of p E -> head_decided E -> stable_nomatch e ins p.
Proof.
  intros Ht Hd x y pos Hrel Hx.
  rewrite Ht in Hx. rewrite Ht.
  pose proof (skip_over_related _ _ Hrel) as Hst.
  destruct (E (skip_over CommentSkipper x)) as [[v r0]|] eqn:EE;
    [discriminate|].
  inversion Hx. subst pos. clear Hx.
  assert (EE' : E (skip_over CommentSkipper y) = None).
  { destruct Hst as [Heq | (c & q & _ & _ & _ & Ex & Ey)].
    - now rewrite <- Heq.
    - rewrite Ey. rewrite Ex in EE. eapply Hd. exact EE. }
  rewrite EE'. eexists. split; [reflexivity|].
  now apply related_stuck_related.
Qed.

Lemma parse_alternative {A} (p q : parser A) sk s :
  parse (alternative p q) sk s =
  match parse p sk s with
  | NoMatch pos => parse q sk pos
  | other => other
  end.
Proof. reflexivity. Qed.

Lemma parse_plus {A} (p : parser A) sk s :
  parse (plus p) sk s =
  match parse p sk s with
  | Match a r =>
      match kleene_from p sk r with
      | Match l r' => Match (a :: l) r'
      | other => other
      end
  | NoMatch _ => NoMatch s
  | ExpectationFailure w e => ExpectationFailure w e
  end.
Proof. reflexivity. Qed.

Lemma parse_list_ {A B} (p : parser A) (sep : parser B) sk s :
  parse (list_ p sep) sk s =
  match parse p sk s with
  | Match a r =>
      match list_from p sep sk r with
      | Match l r' => Match (a :: l) r'
      | other => other
      end
  | NoMatch _ => NoMatch s
  | ExpectationFailure w e => ExpectationFailure w e
  end.
Proof. reflexivity. Qed.

Lemma stable_attr {A} (v : A) : stable_match e ins (interp (Attr v)) (spans (Attr v)).
Proof.
  intros x y a r Hrel Hx _. cbn in Hx. inversion Hx. subst.
  exists y. split; [reflexivity | exact Hrel].
Qed.

Lemma stable_action {A B} (f : A -> B) (g : grammar A) :
  stable_match e ins (interp g) (spans g) ->
  stable_match e ins (interp (Action f g)) (spans (Action f g)).
Proof.
  intros Hg x y b r Hrel Hx Hc. cbn [interp spans] in *.
  apply action_match in Hx. destruct Hx as [a [Hx ->]].
  destruct (Hg _ _ _ _ Hrel Hx Hc) as [r' [Hy Hr]].
  exists r'. split; [now apply action_intro | exact Hr].
Qed.

Lemma stable_nomatch_action {A B} (f : A -> B) (g : grammar A) :
  stable_nomatch e ins (interp g) -> stable_nomatch e ins (interp (Action f g)).
Proof.
  intros Hg x y pos Hrel Hx. cbn [interp] in *.
  apply action_nomatch in Hx.
  destruct (Hg _ _ _ Hrel Hx) as [pos' [Hy Hr]].
  exists pos'. split; [|exact Hr]. cbn. now rewrite Hy.
Qed.

Lemma stable_named {A} name (g : grammar A) :
  stable_match e ins (interp g) (spans g) ->
  stable_match e ins (interp (Named name g)) (spans (Named name g)).
Proof. intros Hg. exact Hg. Qed.

Lemma stable_nomatch_named {A} name (g : grammar A) :
  stable_nomatch e ins (interp g) -> stable_nomatch e ins (interp (Named name g)).
Proof. intros Hg. exact Hg. Qed.

Lemma stable_alternative {A} (a b : grammar A) :
  stable_match e ins (interp a) (spans a) -> stable_nomatch e ins (interp a) ->
  stable_match e ins (interp b) (spans b) ->
  stable_match e ins (interp (Alternative a b)) (spans (Alternative a b)).
Proof.
  intros Ha Na Hb x y v r Hrel Hx Hc. cbn [interp spans] in *.
  rewrite parse_alternative in Hx. rewrite parse_alternative.
  destruct (parse (interp a) CommentSkipper x) as [v0 r0|pos|w0 e0] eqn:Ea;
    try discriminate.
  - inversion Hx. subst v0 r0.
    destruct (Ha _ _ _ _ Hrel Ea Hc) as [r' [Hy Hr]].
    exists r'. now rewrite Hy.
  - destruct (Na _ _ _ Hrel Ea) as [pos' [Hy Hr]]. rewrite Hy.
    exact (Hb _ _ _ _ Hr Hx Hc).
Qed.

Lemma stable_expect {A B} (a : grammar A) (b : grammar B) :
  stable_match e ins (interp a) (spans a) -> stable_match e ins (interp b) (spans b) ->
  stable_match e ins (interp (Expect a b)) (spans (Expect a b)).
Proof.
  intros Ha Hb x y t r Hrel Hx Hc. cbn [interp spans] in *.
  destruct (expect_match _ _ _ _ _ _ Hx) as [r1 [H1 H2]].
  rewrite H1 in Hc. apply clear_of_app in Hc. destruct Hc as [Hc1 Hc2].
  destruct (Ha _ _ _ _ Hrel H1 Hc1) as [r1' [Hy1 Hr1]].
  destruct (Hb _ _ _ _ Hr1 H2 Hc2) as [r' [Hy2 Hr]].
  exists r'. split; [|exact Hr].
  rewrite (surjective_pairing t). eapply expect_intro; eassumption.
Qed.

Lemma stable_nomatch_expect {A B} (a : grammar A) (b : grammar B) :
  stable_nomatch e ins (interp a) -> stable_nomatch e ins (interp (Expect a b)).
Proof.
  intros Na x y pos Hrel Hx. cbn [interp] in *.
  destruct (expect_nomatch _ _ _ _ _ Hx) as [pos0 H0].
  assert (pos = x) as ->.
  { cbn in Hx. rewrite H0 in Hx. now inversion Hx. }
  destruct (Na _ _ _ Hrel H0) as [pos' [Hy _]].
  exists y. split; [|exact Hrel]. cbn. now rewrite Hy.
Qed.

Lemma stable_kleene {A} (p : parser A) sp :
  stable_match e ins p sp -> stable_nomatch e ins p -> progresses p ->
  forall n x y l r,
    (String.length x < n)%nat -> related e ins x y ->
    kleene_loop n p CommentSkipper x = Match l r ->
    clear_of e (kleene_spans n p sp x) = true ->
    exists r', kleene_from p CommentSkipper y = Match l r' /\ related e ins r r'.
Proof.
  intros Hp Np Pp. induction n as [|n IH]; intros x y l r Hn Hrel Hx Hc;
    [lia|].
  cbn [kleene_loop kleene_spans] in Hx, Hc.
  rewrite (kleene_from_unfold _ _ Pp).
  destruct (parse p CommentSkipper x) as [a r1|pos|w0 e0] eqn:E1;
    try discriminate.
  - destruct (kleene_loop n p CommentSkipper r1) as [l1 r2| |] eqn:E2;
      try discriminate.
    inversion Hx. subst l r2. clear Hx.
    apply clear_of_app in Hc. destruct Hc as [Hc1 Hc2].
    destruct (Hp _ _ _ _ Hrel E1 Hc1) as [r1' [Hy1 Hr1]].
    rewrite Hy1.
    assert (L : (String.length r1 < n)%nat) by (apply Pp in E1; lia).
    destruct (IH _ _ _ _ L Hr1 E2 Hc2) as [r' [Hy Hr]].
    rewrite Hy. now exists r'.
  - inversion Hx. subst l r. clear Hx.
    destruct (Np _ _ _ Hrel E1) as [pos' [Hy Hr]].
    rewrite Hy. now exists pos'.
Qed.

Lemma stable_plus {A} (a : grammar A) :
  stable_match e ins (interp a) (spans a) -> stable_nomatch e ins (interp a) ->
  progresses (interp a) ->
  stable_match e ins (interp (Plus a)) (spans (Plus a)).
Proof.
  intros Ha Na Pa x y l r Hrel Hx Hc. cbn [interp spans] in *.
  rewrite parse_plus in Hx. rewrite parse_plus.
  destruct (parse (interp a) CommentSkipper x) as [v r1|pos|w0 e0] eqn:E1;
    try discriminate.
  destruct (kleene_from (interp a) CommentSkipper r1) as [l1 r2| |] eqn:E2;
    try discriminate.
  inversion Hx. subst l r2. clear Hx.
  apply clear_of_app in Hc. destruct Hc as [Hc1 Hc2].
  destruct (Ha _ _ _ _ Hrel E1 Hc1) as [r1' [Hy1 Hr1]]. rewrite Hy1.
  destruct (stable_kleene _ _ Ha Na Pa _ _ _ _ _
              (Nat.lt_succ_diag_r _) Hr1 E2 Hc2) as [r' [Hy Hr]].
  rewrite Hy. now exists r'.
Qed.

Lemma stable_list_loop {A B} (p : parser A) (sep : parser B) sp spsep :
  stable_match e ins p sp -> stable_nomatch e ins p -> progresses p ->
  stable_match e ins sep spsep -> stable_nomatch e ins sep -> shrinks sep ->
  forall n x y l r,
    (String.length x < n)%nat -> related e ins x y ->
    list_loop n p sep CommentSkipper x = Match l r ->
    clear_of e (list_spans n p sep sp spsep x) = true ->
    exists r', list_from p sep CommentSkipper y = Match l r' /\ related e ins r r'.
Proof.
  intros Hp Np Pp Hs Ns Ss.
  induction n as [|n IH]; intros x y l r Hn Hrel Hx Hc; [lia|].
  cbn [list_loop list_spans] in Hx, Hc.
  rewrite (list_from_unfold _ _ Pp _ Ss).
  destruct (parse sep CommentSkipper x) as [b r1|pos|w0 e0] eqn:E1;
    try discriminate.
  - apply clear_of_app in Hc. destruct Hc as [Hc1 Hc2].
    destruct (Hs _ _ _ _ Hrel E1 Hc1) as [r1' [Hy1 Hr1]]. rewrite Hy1.
    destruct (parse p CommentSkipper r1) as [a r2|pos|w0 e0] eqn:E2;
      try discriminate.
    + destruct (list_loop n p sep CommentSkipper r2) as [l1 r3| |] eqn:E3;
        try discriminate.
      inversion Hx. subst l r3. clear Hx.
      apply clear_of_app in Hc2. destruct Hc2 as [Hc2 Hc3].
      destruct (Hp _ _ _ _ Hr1 E2 Hc2) as [r2' [Hy2 Hr2]]. rewrite Hy2.
      assert (L : (String.length r2 < n)%nat).
      { apply Ss in E1. apply Pp in E2. lia. }
      destruct (IH _ _ _ _ L Hr2 E3 Hc3) as [r' [Hy Hr]].
      rewrite Hy. now exists r'.
    + inversion Hx. subst l r. clear Hx.
      destruct (Np _ _ _ Hr1 E2) as [pos' [Hy2 _]]. rewrite Hy2.
      now exists y.
  - inversion Hx. subst l r. clear Hx.
    destruct (Ns _ _ _ Hrel E1) as [pos' [Hy _]]. rewrite Hy.
    now exists y.
Qed.

Lemma stable_list {A B} (a : grammar A) (sep : grammar B) :
  stable_match e ins (interp a) (spans a) -> stable_nomatch e ins (interp a) ->
  progresses (interp a) ->
  stable_match e ins (interp sep) (spans sep) -> stable_nomatch e ins (interp sep) ->
  shrinks (interp sep) ->
  stable_match e ins (interp (ListOf a sep)) (spans (ListOf a sep)).
Proof.
  intros Ha Na Pa Hs Ns Ss x y l r Hrel Hx Hc. cbn [interp spans] in *.
  rewrite parse_list_ in Hx. rewrite parse_list_.
  destruct (parse (interp a) CommentSkipper x) as [v r1|pos|w0 e0] eqn:E1;
    try discriminate.
  destruct (list_from (interp a) (interp sep) CommentSkipper r1)
    as [l1 r2| |] eqn:E2; try discriminate.
  inversion Hx. subst l r2. clear Hx.
  apply clear_of_app in Hc. destruct Hc as [Hc1 Hc2].
  destruct (Ha _ _ _ _ Hrel E1 Hc1) as [r1' [Hy1 Hr1]]. rewrite Hy1.
  destruct (stable_list_loop _ _ _ _ Ha Na Pa Hs Ns Ss _ _ _ _ _
              (Nat.lt_succ_diag_r _) Hr1 E2 Hc2) as [r' [Hy Hr]].
  rewrite Hy. now exists r'.
Qed.

(** *** The tokens of the grammar *)

Lemma char_extractor_local {A} (f : ascii -> option A) :
  local_extractor (char_extractor f).
Proof.
  intros w z v r H L. destruct w as [|c w].
  - exfalso. destruct z as [|c z]; [discriminate|].
    cbn in H. destruct (f c); [|discriminate].
    inversion H. subst. simpl in L. lia.
  - cbn in H. destruct (f c) as [v0|] eqn:E; [|discriminate].
    inversion H. subst. exists w. split; [reflexivity|].
    intros z' _. cbn. now rewrite E.
Qed.

Lemma char_extractor_suffix {A} (f : ascii -> option A) :
  extractor_suffix (char_extractor f).
Proof.
  intros s v r H. destruct s as [|c s]; [discriminate|].
  cbn in H. destruct (f c); [|discriminate].
  inversion H. apply suffix_cons.
Qed.

Lemma char_extractor_head {A} (f : ascii -> option A) :
  head_decided (char_extractor f).
Proof.
  intros c t t' H. cbn in *. destruct (f c); [discriminate | reflexivity].
Qed.

Lemma token_of_rule :
  token_of RuleGrammar.start (char_extractor rule_of_char).
Proof.
  intros s. rewrite RuleGrammar_start_parse.
  destruct (skip_over CommentSkipper s) as [|c r]; [reflexivity|].
  cbn. destruct (rule_of_char c); reflexivity.
Qed.

Lemma token_of_lit_char c :
  token_of (lit_char c)
    (char_extractor (fun b => if (b =? c)%char then Some tt else None)).
Proof.
  intros s. cbn [lit_char parse].
  destruct (skip_over CommentSkipper s) as [|b r]; [reflexivity|].
  cbn. destruct (b =? c)%char; reflexivity.
Qed.

Lemma token_of_lit str : token_of (lit str) (lit_extractor str).
Proof.
  intros s. cbn [lit parse]. unfold lit_extractor.
  destruct (strip_prefix str _); reflexivity.
Qed.

Lemma lit_extractor_local str : local_extractor (lit_extractor str).
Proof.
  intros w z [] r H L. unfold lit_extractor in *.
  destruct (strip_prefix str (w ++ z)) as [r0|] eqn:E; [|discriminate].
  inversion H. subst r0.
  destruct (strip_prefix_local _ _ _ _ E L) as [w2 [-> K]].
  exists w2. split; [reflexivity|]. intros z' _. now rewrite K.
Qed.

Lemma lit_extractor_suffix str : extractor_suffix (lit_extractor str).
Proof.
  intros s v r H. unfold lit_extractor in H.
  destruct (strip_prefix str s) as [r0|] eqn:E; [|discriminate].
  inversion H. subst. eapply strip_prefix_suffix. exact E.
Qed.

Lemma token_of_int : token_of int_ extract_int.
Proof. intros s. reflexivity. Qed.

Lemma token_of_double : token_of double_ extract_real.
Proof. intros s. reflexivity. Qed.

Lemma stable_rule : stable_match e ins (interp Syntax.rule) (spans Syntax.rule).
Proof.
  apply (token_stable_match _ _ token_of_rule);
    [apply char_extractor_local | apply char_extractor_suffix].
Qed.

Lemma stable_nomatch_rule : stable_nomatch e ins (interp Syntax.rule).
Proof.
  apply (token_stable_nomatch _ _ token_of_rule), char_extractor_head.
Qed.

Lemma stable_lit_char c :
  stable_match e ins (interp (Token (lit_char c))) (spans (Token (lit_char c))).
Proof.
  apply (token_stable_match _ _ (token_of_lit_char c));
    [apply char_extractor_local | apply char_extractor_suffix].
Qed.

Lemma stable_nomatch_lit_char c :
  stable_nomatch e ins (interp (Token (lit_char c))).
Proof.
  apply (token_stable_nomatch _ _ (token_of_lit_char c)),
    char_extractor_head.
Qed.

Lemma stable_lit str :
  stable_match e ins (interp (Token (lit str))) (spans (Token (lit str))).
Proof.
  apply (token_stable_match _ _ (token_of_lit str));
    [apply lit_extractor_local | apply lit_extractor_suffix].
Qed.

Lemma stable_int : stable_match e ins (interp (Token int_)) (spans (Token int_)).
Proof.
  apply (token_stable_match _ _ token_of_int).
  - intros w z v r. apply extract_int_local.
  - intros s v r. apply extract_int_suffix.
Qed.

Lemma stable_double :
  stable_match e ins (interp (Token double_)) (spans (Token double_)).
Proof.
  apply (token_stable_match _ _ token_of_double).
  - intros w z v r. apply extract_real_local.
  - intros s v r. apply extract_real_suffix.
Qed.

(** *** The grammar *)

Lemma stable_probability :
  stable_match e ins (interp Syntax.probability) (spans Syntax.probability).
Proof.
  apply stable_named, stable_alternative; [| |apply stable_attr].
  - apply stable_action, stable_expect; [|apply stable_lit_char].
    apply stable_expect; [apply stable_lit_char | apply stable_double].
  - apply stable_nomatch_action, stable_nomatch_expect, stable_nomatch_expect,
      stable_nomatch_lit_char.
Qed.

Lemma stable_production :
  stable_match e ins (interp Syntax.production) (spans Syntax.production).
Proof.
  apply stable_named, stable_action, stable_expect.
  - apply stable_expect; [|apply stable_lit].
    apply stable_expect; [apply stable_rule | apply stable_probability].
  - apply stable_plus;
      [apply stable_rule | apply stable_nomatch_rule |].
    exact RuleGrammar_start_progress.
Qed.

Lemma stable_nomatch_production : stable_nomatch e ins (interp Syntax.production).
Proof.
  apply stable_nomatch_named, stable_nomatch_action, stable_nomatch_expect,
    stable_nomatch_expect, stable_nomatch_expect, stable_nomatch_rule.
Qed.

Lemma stable_productions :
  stable_match e ins (interp Syntax.productions) (spans Syntax.productions).
Proof.
  apply stable_named, stable_action, stable_list.
  - apply stable_named, stable_action, stable_production.
  - apply stable_nomatch_named, stable_nomatch_action,
      stable_nomatch_production.
  - exact pair_progress.
  - apply stable_lit_char.
  - apply stable_nomatch_lit_char.
  - exact newline_shrinks.
Qed.

Lemma stable_lsystem :
  stable_match e ins (interp Syntax.lsystem) (spans Syntax.lsystem).
Proof.
  apply stable_action.
  repeat (apply stable_expect);
    try apply stable_lit; try apply stable_lit_char;
    try apply stable_int; try apply stable_double.
  - apply stable_plus;
      [apply stable_rule | apply stable_nomatch_rule |].
    exact RuleGrammar_start_progress.
  - apply stable_productions.
Qed.

End Transparency.

(** The tokens of a production line, as the pairs of the text from
    their first character on and the text after their last. *)
Example token_spans_of_a_line :
  spans Syntax.production "F (0.5) -> F+" =
  [("F (0.5) -> F+", " (0.5) -> F+");
   ("(0.5) -> F+", "0.5) -> F+");
   ("0.5) -> F+", ") -> F+");
   (") -> F+", " -> F+");
   ("-> F+", " F+");
   ("F+", "+");
   ("+", EmptyString)].
Proof. vm_compute. reflexivity. Qed.

Lemma not_newline_star_body body z :
  no_newline body ->
  not_newline_star (body ++ String nl z) = String nl z.
Proof.
  unfold no_newline. induction body as [|c body IH]; intros H; simpl.
  - reflexivity.
  - destruct (Ascii.eqb_spec c nl) as [->|_].
    + exfalso. apply H. now left.
    + apply IH. intros K. apply H. now right.
Qed.

(** C3 (amended): take an input that parses, and a position in it that is
    inside no token and in front of which every comment is closed.  A
    comment inserted at that position, from its [#] to its newline,
    leaves the result of the parse as it was. *)
Theorem comment_transparency (q e body : string) (l : LSystem) :
  LSystemParser.parse (q ++ e) = Returned l ->
  clear_of e (token_spans (q ++ e)) = true ->
  comments_closed q = true ->
  no_newline body ->
  LSystemParser.parse (q ++ String "#" (body ++ String nl e)) = Returned l.
Proof.
  intros Hparse Hclear Hq Hbody.
  set (ins := String "#" (body ++ String nl EmptyString)).
  assert (Hins : forall z, CommentSkipper (ins ++ z) = Some z).
  { intros z. unfold ins. cbn [append CommentSkipper Ascii.eqb Bool.eqb].
    rewrite append_assoc. cbn [append].
    now rewrite not_newline_star_body. }
  assert (Hy : q ++ String "#" (body ++ String nl e) = q ++ ins ++ e).
  { unfold ins. cbn [append]. now rewrite append_assoc. }
  rewrite Hy.
  unfold LSystemParser.parse, parse_range, phrase_parse,
    LSystemGrammar.start in Hparse.
  destruct (parse LSystemGrammar.sequence CommentSkipper (q ++ e))
    as [l0 r| |] eqn:E; try discriminate.
  inversion Hparse. subst l0.
  destruct (stable_lsystem e ins Hins (q ++ e) (q ++ ins ++ e) l r)
    as [r' [Hr _]].
  - right. now exists q.
  - exact E.
  - exact Hclear.
  - exact (proj1 (sequence_match_returns _ _ _ Hr)).
Qed.

Lemma comment_transparency_witness :
  LSystemParser.parse
    (("generations:5 angle:20 scale:0.6 axiom:F" ++ endl ++ "F -> F[") ++
     String "#" (" turn left" ++ String nl "+F]F")) =
  Returned {| generations := 5; angle := 20; scale := 3 # 5;
              axiom := [MoveForwardRule];
              productions :=
                [(MoveForwardRule,
                  [(1%Q, [MoveForwardRule; WordRule "["; WordRule "+";
                          MoveForwardRule; WordRule "]";
                          MoveForwardRule])])] |}.
Proof.
  apply (comment_transparency
           ("generations:5 angle:20 scale:0.6 axiom:F" ++ endl ++ "F -> F[")
           "+F]F" " turn left").
  - vm_compute. reflexivity.
  - vm_compute. reflexivity.
  - vm_compute. reflexivity.
  - unfold no_newline. simpl. intros H.
    repeat (destruct H as [H|H]; [discriminate|]). exact H.
Defined.

(** C3 as stated fails behind a [#] that the end of the input leaves
    without its newline: the text after it is read as symbols (one token
    each), and the newline of a comment inserted between two of them
    closes the [#], so that the symbols before the insertion disappear. *)
Lemma comment_transparency_counterexample :
  let q := "generations:5 angle:20 scale:0.6 axiom:F" ++ endl ++ "F -> F #a" in
  let e := "b" in
  LSystemParser.parse (q ++ e) =
    Returned {| generations := 5; angle := 20; scale := 3 # 5;
                axiom := [MoveForwardRule];
                productions :=
                  [(MoveForwardRule,
                    [(1%Q, [MoveForwardRule; WordRule "#"; WordRule "a";
                            WordRule "b"])])] |} /\
  In (String "a" e, e) (token_spans (q ++ e)) /\
  In (e, EmptyString) (token_spans (q ++ e)) /\
  clear_of e (token_spans (q ++ e)) = true /\
  LSystemParser.parse (q ++ String "#" ("c" ++ String nl e)) =
    Returned {| generations := 5; angle := 20; scale := 3 # 5;
                axiom := [MoveForwardRule];
                productions :=
                  [(MoveForwardRule,
                    [(1%Q, [MoveForwardRule; WordRule "b"])])] |} /\
  LSystemParser.parse (q ++ String "#" ("c" ++ String nl e)) <>
    LSystemParser.parse (q ++ e).
Proof.
  intros q e.
  split; [vm_compute; reflexivity|].
  split; [vm_compute; tauto|].
  split; [vm_compute; tauto|].
  split; [vm_compute; reflexivity|].
  split; [vm_compute; reflexivity|].
  vm_compute. discriminate.
Qed.

(** ** Text behind a blank line

    The run of the parser on a text is compared with its run on the same
    text with a newline and a line without symbols appended.  No token
    reads a newline behind its first character, so every token matches as
    before; at the end of the text the list of productions finds the
    appended newline, no production behind it, and gives the newline
    back. *)

Lemma append_empty_r (s : string) : s ++ EmptyString = s.
Proof. induction s as [|c s IH]; simpl; [reflexivity | now rewrite IH]. Qed.

Section Trailing.

(** The appended text [e]: a newline and a text [t] at which, after
    skipping, no symbol starts. *)
Variable e t : string.
Hypothesis e_line : e = String nl t.
Hypothesis t_blank : line_end (skip_over CommentSkipper t).

Lemma trailing_stopper : stopper_head e.
Proof. exists nl, t. auto. Qed.

Lemma skip_over_trailing_aux n :
  forall x, (String.length x < n)%nat -> comments_closed x = true ->
  skip_over CommentSkipper (x ++ e) = skip_over CommentSkipper x ++ e.
Proof.
  induction n as [|n IH]; intros x Hn Hx; [lia|].
  destruct x as [|c x].
  - cbn [append]. rewrite (skip_over_unfold EmptyString).
    rewrite skip_over_unfold, e_line. reflexivity.
  - rewrite (skip_over_unfold (String c x ++ e)).
    rewrite (skip_over_unfold (String c x)).
    cbn [append CommentSkipper].
    destruct (Ascii.eqb_spec c " ") as [->|Hs].
    + apply IH; [simpl in Hn; lia|]. eapply comments_closed_tail. exact Hx.
    + destruct (Ascii.eqb_spec c "#") as [->|Hh]; [|reflexivity].
      simpl in Hx. apply andb_true_iff in Hx. destruct Hx as [Hnl Hx].
      unfold has_newline in Hnl.
      destruct (not_newline_star x) as [|c' r] eqn:E; [discriminate|].
      rewrite (not_newline_star_app _ _ _ e E).
      pose proof (not_newline_star_suffix x) as Hsuf. rewrite E in Hsuf.
      apply IH.
      * apply suffix_length in Hsuf. simpl in Hsuf, Hn. lia.
      * eapply comments_closed_suffix; [|exact Hx].
        eapply suffix_trans; [apply suffix_cons | exact Hsuf].
Qed.

Lemma skip_over_trailing x :
  comments_closed x = true ->
  skip_over CommentSkipper (x ++ e) = skip_over CommentSkipper x ++ e.
Proof. apply (skip_over_trailing_aux (S (String.length x))). lia. Qed.

Lemma skip_over_closed x :
  comments_closed x = true ->
  comments_closed (skip_over CommentSkipper x) = true.
Proof. apply comments_closed_suffix, skip_over_suffix. Qed.

(** *** Tokens *)

Lemma carries_token {A} (p : parser A) E :
  token_of p E -> local_extractor E -> extractor_suffix E -> carries e p.
Proof.
  intros Ht Hl Hs x a r Hx H. rewrite Ht in H. rewrite Ht.
  rewrite (skip_over_trailing x Hx).
  destruct (E (skip_over CommentSkipper x)) as [[v r0]|] eqn:EE;
    [|discriminate].
  inversion H. subst v r0. clear H.
  pose proof (Hs _ _ _ EE) as Hsuf.
  rewrite <- (append_empty_r (skip_over CommentSkipper x)) in EE.
  destruct (Hl _ _ _ _ EE (Nat.le_0_l _)) as [w2 [Hr K]].
  rewrite append_empty_r in Hr. subst w2.
  rewrite (K e trailing_stopper). split; [reflexivity|].
  eapply comments_closed_suffix; [exact Hsuf|].
  now apply skip_over_closed.
Qed.

Lemma carries_nomatch_char {A} (p : parser A) (f : ascii -> option A) :
  token_of p (char_extractor f) -> f nl = None -> carries_nomatch e p.
Proof.
  intros Ht Hf x pos Hx H. rewrite Ht in H. rewrite Ht.
  rewrite (skip_over_trailing x Hx).
  destruct (char_extractor f (skip_over CommentSkipper x)) as [[v r0]|] eqn:EE;
    [discriminate|].
  inversion H. subst pos. clear H.
  assert (EE' : char_extractor f (skip_over CommentSkipper x ++ e) = None).
  { destruct (skip_over CommentSkipper x) as [|c r].
    - cbn [append]. rewrite e_line. cbn. now rewrite Hf.
    - cbn in *. destruct (f c); [discriminate | reflexivity]. }
  rewrite EE'. split; [reflexivity | now apply skip_over_closed].
Qed.

(** *** Operators *)

Lemma carries_attr {A} (v : A) : carries e (attr v).
Proof. intros x a r Hx H. cbn in *. inversion H. subst. auto. Qed.

Lemma carries_action {A B} (f : A -> B) (p : parser A) :
  carries e p -> carries e (action f p).
Proof.
  intros Hp x b r Hx H.
  apply action_match in H. destruct H as [a [H ->]].
  destruct (Hp _ _ _ Hx H) as [Hy Hr].
  split; [now apply action_intro | exact Hr].
Qed.

Lemma carries_nomatch_action {A B} (f : A -> B) (p : parser A) :
  carries_nomatch e p -> carries_nomatch e (action f p).
Proof.
  intros Hp x pos Hx H. cbn in H.
  destruct (parse p CommentSkipper x) as [a r|pos0|w0 e0] eqn:E;
    try discriminate.
  inversion H. subst pos0.
  destruct (Hp _ _ Hx E) as [Hy Hr].
  split; [|exact Hr]. cbn. now rewrite Hy.
Qed.

Lemma carries_alternative {A} (p q : parser A) :
  carries e p -> carries_nomatch e p -> carries e q ->
  carries e (alternative p q).
Proof.
  intros Hp Np Hq x v r Hx H.
  rewrite parse_alternative in H. rewrite parse_alternative.
  destruct (parse p CommentSkipper x) as [v0 r0|pos|w0 e0] eqn:Ea;
    try discriminate.
  - inversion H. subst v0 r0.
    destruct (Hp _ _ _ Hx Ea) as [Hy Hr]. now rewrite Hy.
  - destruct (Np _ _ Hx Ea) as [Hy Hr]. rewrite Hy.
    exact (Hq _ _ _ Hr H).
Qed.

Lemma carries_expect {A B} (p : parser A) (q : parser B) :
  carries e p -> carries e q -> carries e (expect p q).
Proof.
  intros Hp Hq x v r Hx H.
  destruct (expect_match _ _ _ _ _ _ H) as [r1 [H1 H2]].
  destruct (Hp _ _ _ Hx H1) as [Hy1 Hr1].
  destruct (Hq _ _ _ Hr1 H2) as [Hy2 Hr].
  split; [|exact Hr].
  rewrite (surjective_pairing v). eapply expect_intro; eassumption.
Qed.

Lemma carries_nomatch_expect {A B} (p : parser A) (q : parser B) :
  carries_nomatch e p -> carries_nomatch e (expect p q).
Proof.
  intros Np x pos Hx H.
  destruct (expect_nomatch _ _ _ _ _ H) as [pos0 H0].
  assert (pos = x) as ->.
  { cbn in H. rewrite H0 in H. now inversion H. }
  destruct (Np _ _ Hx H0) as [Hy _].
  split; [|exact Hx]. cbn. now rewrite Hy.
Qed.

Lemma carries_kleene {A} (p : parser A) :
  carries e p -> carries_nomatch e p -> progresses p ->
  forall n x l r,
    (String.length x < n)%nat -> comments_closed x = true ->
    kleene_loop n p CommentSkipper x = Match l r ->
    kleene_from p CommentSkipper (x ++ e) = Match l (r ++ e) /\
    comments_closed r = true.
Proof.
  intros Hp Np Pp. induction n as [|n IH]; intros x l r Hn Hx H; [lia|].
  cbn [kleene_loop] in H.
  rewrite (kleene_from_unfold _ _ Pp).
  destruct (parse p CommentSkipper x) as [a r1|pos|w0 e0] eqn:E1;
    try discriminate.
  - destruct (kleene_loop n p CommentSkipper r1) as [l1 r2| |] eqn:E2;
      try discriminate.
    inversion H. subst l r2. clear H.
    destruct (Hp _ _ _ Hx E1) as [Hy1 Hr1]. rewrite Hy1.
    assert (L : (String.length r1 < n)%nat) by (apply Pp in E1; lia).
    destruct (IH _ _ _ L Hr1 E2) as [Hy Hr].
    rewrite Hy. auto.
  - inversion H. subst l r. clear H.
    destruct (Np _ _ Hx E1) as [Hy Hr]. rewrite Hy. auto.
Qed.

Lemma carries_plus {A} (p : parser A) :
  carries e p -> carries_nomatch e p -> progresses p -> carries e (plus p).
Proof.
  intros Hp Np Pp x l r Hx H.
  rewrite parse_plus in H. rewrite parse_plus.
  destruct (parse p CommentSkipper x) as [v r1|pos|w0 e0] eqn:E1;
    try discriminate.
  destruct (kleene_from p CommentSkipper r1) as [l1 r2| |] eqn:E2;
    try discriminate.
  inversion H. subst l r2. clear H.
  destruct (Hp _ _ _ Hx E1) as [Hy1 Hr1]. rewrite Hy1.
  destruct (carries_kleene _ Hp Np Pp _ _ _ _
              (Nat.lt_succ_diag_r _) Hr1 E2) as [Hy Hr].
  rewrite Hy. auto.
Qed.

(** The list of lines.  Where the list ends in the text, it ends in the
    longer text: at the end of the text the appended newline is a
    separator, but the subject fails behind it and the separator is given
    back. *)
Lemma carries_list_loop {A} (p : parser A) :
  carries e p -> carries_nomatch e p -> progresses p ->
  (exists pos, parse p CommentSkipper t = NoMatch pos) ->
  forall n x l r,
    (String.length x < n)%nat -> comments_closed x = true ->
    list_loop n p (lit_char nl) CommentSkipper x = Match l r ->
    list_from p (lit_char nl) CommentSkipper (x ++ e) = Match l (r ++ e) /\
    comments_closed r = true.
Proof.
  intros Hp Np Pp [post Ht].
  assert (Hs : carries e (lit_char nl)).
  { apply (carries_token _ _ (token_of_lit_char nl));
      [apply char_extractor_local | apply char_extractor_suffix]. }
  induction n as [|n IH]; intros x l r Hn Hx H; [lia|].
  cbn [list_loop] in H.
  rewrite (list_from_unfold _ _ Pp _ newline_shrinks).
  destruct (parse (lit_char nl) CommentSkipper x) as [b r1|pos|w0 e0] eqn:E1;
    try discriminate.
  - destruct (Hs _ _ _ Hx E1) as [Hy1 Hr1]. rewrite Hy1.
    destruct (parse p CommentSkipper r1) as [a r2|pos|w0 e0] eqn:E2;
      try discriminate.
    + destruct (list_loop n p (lit_char nl) CommentSkipper r2)
        as [l1 r3| |] eqn:E3; try discriminate.
      inversion H. subst l r3. clear H.
      destruct (Hp _ _ _ Hr1 E2) as [Hy2 Hr2]. rewrite Hy2.
      assert (L : (String.length r2 < n)%nat).
      { apply newline_shrinks in E1. apply Pp in E2. lia. }
      destruct (IH _ _ _ L Hr2 E3) as [Hy Hr]. rewrite Hy. auto.
    + inversion H. subst l r. clear H.
      destruct (Np _ _ Hr1 E2) as [Hy2 _]. rewrite Hy2. auto.
  - inversion H. subst l r. clear H.
    rewrite (token_of_lit_char nl) in E1.
    rewrite (token_of_lit_char nl), (skip_over_trailing x Hx).
    destruct (skip_over CommentSkipper x) as [|c r] eqn:Ex.
    + cbn [append]. rewrite e_line. cbn. rewrite Ht. auto.
    + cbn in E1. cbn [append]. cbn.
      destruct (c =? nl)%char; [discriminate | auto].
Qed.

Lemma carries_list {A} (p : parser A) :
  carries e p -> carries_nomatch e p -> progresses p ->
  (exists pos, parse p CommentSkipper t = NoMatch pos) ->
  carries e (list_ p (lit_char nl)).
Proof.
  intros Hp Np Pp Ht x l r Hx H.
  rewrite parse_list_ in H. rewrite parse_list_.
  destruct (parse p CommentSkipper x) as [v r1|pos|w0 e0] eqn:E1;
    try discriminate.
  destruct (list_from p (lit_char nl) CommentSkipper r1)
    as [l1 r2| |] eqn:E2; try discriminate.
  inversion H. subst l r2. clear H.
  destruct (Hp _ _ _ Hx E1) as [Hy1 Hr1]. rewrite Hy1.
  destruct (carries_list_loop _ Hp Np Pp Ht _ _ _ _
              (Nat.lt_succ_diag_r _) Hr1 E2) as [Hy Hr].
  rewrite Hy. auto.
Qed.

(** *** The grammar *)

Lemma carries_rule : carries e RuleGrammar.start.
Proof.
  apply (carries_token _ _ token_of_rule);
    [apply char_extractor_local | apply char_extractor_suffix].
Qed.

Lemma carries_nomatch_rule : carries_nomatch e RuleGrammar.start.
Proof. apply (carries_nomatch_char _ _ token_of_rule). reflexivity. Qed.

Lemma carries_lit_char c : carries e (lit_char c).
Proof.
  apply (carries_token _ _ (token_of_lit_char c));
    [apply char_extractor_local | apply char_extractor_suffix].
Qed.

Lemma carries_lit str : carries e (lit str).
Proof.
  apply (carries_token _ _ (token_of_lit str));
    [apply lit_extractor_local | apply lit_extractor_suffix].
Qed.

Lemma carries_int : carries e int_.
Proof.
  apply (carries_token _ _ token_of_int).
  - intros w z v r. apply extract_int_local.
  - intros s v r. apply extract_int_suffix.
Qed.

Lemma carries_double : carries e double_.
Proof.
  apply (carries_token _ _ token_of_double).
  - intros w z v r. apply extract_real_local.
  - intros s v r. apply extract_real_suffix.
Qed.

Lemma carries_probability : carries e ProductionGrammar.probability.
Proof.
  unfold ProductionGrammar.probability, rule_named.
  apply carries_alternative; [| |apply carries_attr].
  - apply carries_action, carries_expect; [|apply carries_lit_char].
    apply carries_expect; [apply carries_lit_char | apply carries_double].
  - apply carries_nomatch_action, carries_nomatch_expect,
      carries_nomatch_expect.
    apply (carries_nomatch_char _ _ (token_of_lit_char "(")). reflexivity.
Qed.

Lemma carries_pair : carries e ProductionGrammar.pair.
Proof.
  unfold ProductionGrammar.pair, ProductionGrammar.production, rule_named.
  apply carries_action, carries_action, carries_expect.
  - apply carries_expect; [|apply carries_lit].
    apply carries_expect; [apply carries_rule | apply carries_probability].
  - apply carries_plus;
      [apply carries_rule | apply carries_nomatch_rule |].
    exact RuleGrammar_start_progress.
Qed.

Lemma carries_nomatch_pair : carries_nomatch e ProductionGrammar.pair.
Proof.
  unfold ProductionGrammar.pair, ProductionGrammar.production, rule_named.
  apply carries_nomatch_action, carries_nomatch_action,
    carries_nomatch_expect, carries_nomatch_expect, carries_nomatch_expect,
    carries_nomatch_rule.
Qed.

Lemma no_pair_behind_blank :
  exists pos, parse ProductionGrammar.pair CommentSkipper t = NoMatch pos.
Proof.
  assert (H : parse RuleGrammar.start CommentSkipper t =
              NoMatch (skip_over CommentSkipper t)).
  { rewrite token_of_rule.
    destruct t_blank as [->|(c & r' & -> & Hc)]; [reflexivity|].
    cbn. unfold rule_of_char.
    destruct Hc as [->|Hc]; [reflexivity|].
    destruct (Ascii.eqb_spec c "F") as [->|_]; [discriminate Hc|].
    destruct (Ascii.eqb_spec c "f") as [->|_]; [discriminate Hc|].
    now rewrite Hc. }
  exists t.
  unfold ProductionGrammar.pair, ProductionGrammar.production, rule_named,
    action, expect, ProductionGrammar.rule.
  cbn [parse]. rewrite H. reflexivity.
Qed.

Lemma carries_productions : carries e ProductionGrammar.start.
Proof.
  unfold ProductionGrammar.start, rule_named.
  apply carries_action, carries_list.
  - apply carries_pair.
  - apply carries_nomatch_pair.
  - exact pair_progress.
  - exact no_pair_behind_blank.
Qed.

Lemma carries_lsystem : carries e LSystemGrammar.sequence.
Proof.
  unfold LSystemGrammar.sequence.
  apply carries_action.
  repeat (apply carries_expect);
    try apply carries_lit; try apply carries_lit_char;
    try apply carries_int; try apply carries_double.
  - apply carries_plus;
      [apply carries_rule | apply carries_nomatch_rule |].
    exact RuleGrammar_start_progress.
  - apply carries_productions.
Qed.

End Trailing.

(** An input that parses, seen as a match of the grammar. *)
Lemma returned_is_match s l :
  LSystemParser.parse s = Returned l ->
  exists r, parse LSystemGrammar.sequence CommentSkipper s = Match l r.
Proof.
  unfold LSystemParser.parse, parse_range, phrase_parse,
    LSystemGrammar.start.
  destruct (parse LSystemGrammar.sequence CommentSkipper s)
    as [l' r|pos|w e]; try discriminate.
  intros H. inversion H. now exists r.
Qed.

(** C2 (amended): the end of the input is not checked.  Whenever the
    grammar matches a prefix of the input, the [LSystem] of that prefix is
    returned and the rest stays unread.  The production block ends at a
    newline that no symbol follows.  So take any input that parses and in
    which every [#] has its newline, and append a newline and any text
    that begins with a line without symbols (after skipping, the text is
    empty or begins with a newline or with a character outside ASCII):
    the same [LSystem] is returned, and all that was appended stays
    unread. *)
Theorem trailing_content_unread :
  (forall s l r,
     parse LSystemGrammar.sequence CommentSkipper s = Match l r ->
     LSystemParser.parse s = Returned l /\
     fst (phrase_parse s) = Some (l, skip_over CommentSkipper r)) /\
  (forall r r1 pos,
     skip_over CommentSkipper r = String nl r1 ->
     parse RuleGrammar.start CommentSkipper r1 = NoMatch pos ->
     list_from ProductionGrammar.pair (lit_char nl) CommentSkipper r =
       Match [] r) /\
  (forall d l t,
     LSystemParser.parse d = Returned l ->
     comments_closed d = true ->
     line_end (skip_over CommentSkipper t) ->
     LSystemParser.parse (d ++ String nl t) = Returned l /\
     exists rest,
       fst (phrase_parse d) = Some (l, rest) /\
       fst (phrase_parse (d ++ String nl t)) =
         Some (l, rest ++ String nl t)).
Proof.
  split; [exact sequence_match_returns|].
  split; [exact block_ends_at_blank_line|].
  intros d l t Hd Hc Ht.
  destruct (returned_is_match _ _ Hd) as [r E].
  destruct (carries_lsystem (String nl t) t eq_refl Ht d l r Hc E)
    as [E' Hr].
  destruct (sequence_match_returns _ _ _ E) as [_ P].
  destruct (sequence_match_returns _ _ _ E') as [R' P'].
  split; [exact R'|].
  exists (skip_over CommentSkipper r). split; [exact P|].
  rewrite P'. now rewrite (skip_over_trailing (String nl t) t eq_refl r Hr).
Qed.

Lemma trailing_content_unread_witness :
  LSystemParser.parse
    (scenario ++ String nl (" # the end" ++ endl ++ endl ++ "X")) =
    Returned scenario_lsystem /\
  exists rest,
    fst (phrase_parse scenario) = Some (scenario_lsystem, rest) /\
    fst (phrase_parse
           (scenario ++ String nl (" # the end" ++ endl ++ endl ++ "X"))) =
      Some (scenario_lsystem,
            rest ++ String nl (" # the end" ++ endl ++ endl ++ "X")).
Proof.
  apply (proj2 (proj2 trailing_content_unread)).
  - vm_compute. reflexivity.
  - vm_compute. reflexivity.
  - right. exists nl, "X". split; [vm_compute; reflexivity | now left].
Defined.

(** The comments have to be closed: a [#] that the end of the input
    leaves open is read as symbols, and the appended newline turns it
    into a comment that takes the newline with it. *)
Example open_comment_reads_on :
  LSystemParser.parse (scenario ++ " #ab") =
    Returned {| generations := 5; angle := 20; scale := 3 # 5;
                axiom := [MoveForwardRule];
                productions :=
                  [(MoveForwardRule,
                    [(1%Q, [MoveForwardRule; WordRule "#"; WordRule "a";
                            WordRule "b"])])] |} /\
  comments_closed (scenario ++ " #ab") = false /\
  LSystemParser.parse (scenario ++ " #ab" ++ endl ++ endl ++ "X") =
    DomainError
      ("Cannot parse lsystem:" ++
       LSystemGrammar.error_text (info_value "->") EmptyString).
Proof. repeat split; vm_compute; reflexivity. Qed.

(** * Further properties of the parser *)

(** ** Spaces between tokens *)

(** X1: a space inserted at a position that is inside no token and in
    front of which every comment is closed leaves the result of the parse
    as it was. *)
Theorem space_transparency (q e : string) (l : LSystem) :
  LSystemParser.parse (q ++ e) = Returned l ->
  clear_of e (token_spans (q ++ e)) = true ->
  comments_closed q = true ->
  LSystemParser.parse (q ++ String " " e) = Returned l.
Proof.
  intros Hparse Hclear Hq.
  assert (Hins : forall z, CommentSkipper (" " ++ z) = Some z)
    by reflexivity.
  unfold LSystemParser.parse, parse_range, phrase_parse,
    LSystemGrammar.start in Hparse.
  destruct (parse LSystemGrammar.sequence CommentSkipper (q ++ e))
    as [l0 r| |] eqn:E; try discriminate.
  inversion Hparse. subst l0.
  destruct (stable_lsystem e " " Hins (q ++ e) (q ++ " " ++ e) l r)
    as [r' [Hr _]].
  - right. now exists q.
  - exact E.
  - exact Hclear.
  - exact (proj1 (sequence_match_returns _ _ _ Hr)).
Qed.

Lemma space_transparency_witness :
  LSystemParser.parse
    (("generations:5" ++ "angle:20 scale:0.6 axiom:F" ++ endl ++ "F->F[") ++
     String " " "+F]") =
  Returned {| generations := 5; angle := 20; scale := 3 # 5;
              axiom := [MoveForwardRule];
              productions :=
                [(MoveForwardRule,
                  [(1%Q, [MoveForwardRule; WordRule "["; WordRule "+";
                          MoveForwardRule; WordRule "]"])])] |}.
Proof.
  apply (space_transparency
           ("generations:5" ++ "angle:20 scale:0.6 axiom:F" ++ endl ++ "F->F[")
           "+F]").
  - vm_compute. reflexivity.
  - vm_compute. reflexivity.
  - vm_compute. reflexivity.
Defined.

(** ** What stands in front of the document *)

Lemma same_outcome_expect {A B} (p : parser A) (q : parser B) sk x y :
  same_outcome (parse p sk x) (parse p sk y) ->
  same_outcome (parse (expect p q) sk x) (parse (expect p q) sk y).
Proof.
  cbn. destruct (parse p sk x) as [a r| |], (parse p sk y) as [a' r'| |];
    cbn; try tauto.
  intros [-> ->]. destruct (parse q sk r') as [b r2| |]; cbn; auto.
Qed.

Lemma same_outcome_action {A B} (f : A -> B) (p : parser A) sk x y :
  same_outcome (parse p sk x) (parse p sk y) ->
  same_outcome (parse (action f p) sk x) (parse (action f p) sk y).
Proof.
  cbn. destruct (parse p sk x) as [a r| |], (parse p sk y) as [a' r'| |];
    cbn; try tauto.
  intros [-> ->]. auto.
Qed.

(** X2: the outcome of [parse], error message included, depends on the
    input only through what is left of it after the first skip: spaces
    and comments in front of the document are no part of it. *)
Theorem leading_skip_ignored (x y : string) :
  skip_over CommentSkipper x = skip_over CommentSkipper y ->
  LSystemParser.parse x = LSystemParser.parse y.
Proof.
  intros H.
  assert (K : same_outcome (parse LSystemGrammar.sequence CommentSkipper x)
                           (parse LSystemGrammar.sequence CommentSkipper y)).
  { unfold LSystemGrammar.sequence.
    apply same_outcome_action.
    repeat apply same_outcome_expect.
    unfold lit. cbn [parse]. rewrite H.
    destruct (strip_prefix "generations:" (skip_over CommentSkipper y));
      cbn; auto. }
  unfold LSystemParser.parse, parse_range, phrase_parse,
    LSystemGrammar.start.
  destruct (parse LSystemGrammar.sequence CommentSkipper x) as [a r| |],
           (parse LSystemGrammar.sequence CommentSkipper y) as [a' r'| |];
    cbn in K; try contradiction.
  - destruct K as [-> ->]. reflexivity.
  - reflexivity.
  - destruct K as [-> ->]. reflexivity.
Qed.

Lemma leading_skip_ignored_witness :
  LSystemParser.parse ("  # a note" ++ endl ++ " generations:x") =
  LSystemParser.parse "generations:x" /\
  LSystemParser.parse "generations:x" =
  DomainError
    ("Cannot parse lsystem:" ++
     LSystemGrammar.error_text (info_tag "integer") "x").
Proof.
  split.
  - apply leading_skip_ignored. vm_compute. reflexivity.
  - vm_compute. reflexivity.
Defined.

(** ** Line breaks in the header *)

Lemma expect_throws {A B} (p : parser A) (q : parser B) sk s a r pos :
  parse p sk s = Match a r -> parse q sk r = NoMatch pos ->
  parse (expect p q) sk s = ExpectationFailure (what q) pos.
Proof. intros H1 H2. cbn. now rewrite H1, H2. Qed.

Lemma expect_rethrows {A B} (p : parser A) (q : parser B) sk s w e :
  parse p sk s = ExpectationFailure w e ->
  parse (expect p q) sk s = ExpectationFailure w e.
Proof. intros H. cbn. now rewrite H. Qed.

Lemma sequence_throw_reported s w e :
  parse LSystemGrammar.sequence CommentSkipper s = ExpectationFailure w e ->
  LSystemParser.parse s =
    DomainError ("Cannot parse lsystem:" ++ LSystemGrammar.error_text w e).
Proof.
  intros H.
  unfold LSystemParser.parse, parse_range, phrase_parse,
    LSystemGrammar.start.
  now rewrite H.
Qed.

Lemma keyword_not_at_newline str c str' rest :
  str = String c str' -> c <> nl ->
  forall r, skip_over CommentSkipper r = String nl rest ->
  parse (lit str) CommentSkipper r = NoMatch (String nl rest).
Proof.
  intros -> Hc r Hr. cbn [lit parse]. rewrite Hr. cbn [strip_prefix].
  apply Ascii.eqb_neq in Hc. now rewrite Hc.
Qed.

(** X3: the newline is no skippable character.  When the header has
    been read up to the place where the keyword [angle:], [scale:] or
    [axiom:] is expected, and skipping spaces and comments stops there at
    a newline, the parse fails; the message names the keyword and quotes
    the input from that newline on. *)
Theorem header_line_break_fails (s r1 r2 : string) (g : Z) :
  strip_prefix "generations:" (skip_over CommentSkipper s) = Some r1 ->
  extract_int (skip_over CommentSkipper r1) = Some (g, r2) ->
  (forall rest,
     skip_over CommentSkipper r2 = String nl rest ->
     LSystemParser.parse s =
       DomainError
         ("Cannot parse lsystem:" ++
          LSystemGrammar.error_text (info_value "angle:") (String nl rest))) /\
  (forall r3 a r4 rest,
     strip_prefix "angle:" (skip_over CommentSkipper r2) = Some r3 ->
     extract_real (skip_over CommentSkipper r3) = Some (a, r4) ->
     skip_over CommentSkipper r4 = String nl rest ->
     LSystemParser.parse s =
       DomainError
         ("Cannot parse lsystem:" ++
          LSystemGrammar.error_text (info_value "scale:") (String nl rest))) /\
  (forall r3 a r4 r5 sc r6 rest,
     strip_prefix "angle:" (skip_over CommentSkipper r2) = Some r3 ->
     extract_real (skip_over CommentSkipper r3) = Some (a, r4) ->
     strip_prefix "scale:" (skip_over CommentSkipper r4) = Some r5 ->
     extract_real (skip_over CommentSkipper r5) = Some (sc, r6) ->
     skip_over CommentSkipper r6 = String nl rest ->
     LSystemParser.parse s =
       DomainError
         ("Cannot parse lsystem:" ++
          LSystemGrammar.error_text (info_value "axiom:") (String nl rest))).
Proof.
  intros H1 H2. apply lit_intro in H1. apply int_intro in H2.
  pose proof (expect_intro _ _ _ _ _ _ _ _ H1 H2) as K2.
  split; [|split].
  - intros rest Hr. apply sequence_throw_reported.
    unfold LSystemGrammar.sequence. cbn [action parse].
    pose proof (keyword_not_at_newline "angle:" _ _ rest eq_refl
                  ltac:(discriminate) r2 Hr) as F.
    pose proof (expect_throws _ _ _ _ _ _ _ K2 F) as T.
    do 7 (eapply expect_rethrows in T). rewrite T. reflexivity.
  - intros r3 a r4 rest H3 H4 Hr. apply sequence_throw_reported.
    apply lit_intro in H3. apply double_intro in H4.
    pose proof (expect_intro _ _ _ _ _ _ _ _ K2 H3) as K3.
    pose proof (expect_intro _ _ _ _ _ _ _ _ K3 H4) as K4.
    unfold LSystemGrammar.sequence. cbn [action parse].
    pose proof (keyword_not_at_newline "scale:" _ _ rest eq_refl
                  ltac:(discriminate) r4 Hr) as F.
    pose proof (expect_throws _ _ _ _ _ _ _ K4 F) as T.
    do 5 (eapply expect_rethrows in T). rewrite T. reflexivity.
  - intros r3 a r4 r5 sc r6 rest H3 H4 H5 H6 Hr.
    apply sequence_throw_reported.
    apply lit_intro in H3, H5. apply double_intro in H4, H6.
    pose proof (expect_intro _ _ _ _ _ _ _ _ K2 H3) as K3.
    pose proof (expect_intro _ _ _ _ _ _ _ _ K3 H4) as K4.
    pose proof (expect_intro _ _ _ _ _ _ _ _ K4 H5) as K5.
    pose proof (expect_intro _ _ _ _ _ _ _ _ K5 H6) as K6.
    unfold LSystemGrammar.sequence. cbn [action parse].
    pose proof (keyword_not_at_newline "axiom:" _ _ rest eq_refl
                  ltac:(discriminate) r6 Hr) as F.
    pose proof (expect_throws _ _ _ _ _ _ _ K6 F) as T.
    do 3 (eapply expect_rethrows in T). rewrite T. reflexivity.
Qed.

Lemma header_line_break_fails_witness :
  LSystemParser.parse
    ("generations:4" ++ endl ++ "angle:25.7" ++ endl ++ "scale:1" ++ endl ++
     "axiom:F" ++ endl ++ "F -> F") =
  DomainError
    ("Cannot parse lsystem:" ++
     LSystemGrammar.error_text (info_value "angle:")
       (endl ++ "angle:25.7" ++ endl ++ "scale:1" ++ endl ++
        "axiom:F" ++ endl ++ "F -> F")).
Proof.
  refine (proj1 (header_line_break_fails _ _ _ 4%Z _ _) _ _).
  - vm_compute. reflexivity.
  - vm_compute. reflexivity.
  - vm_compute. reflexivity.
Defined.

(** ** The table of productions *)

Lemma ascii_compare_lt_trans a b c :
  Ascii.compare a b = Lt -> Ascii.compare b c = Lt -> Ascii.compare a c = Lt.
Proof.
  unfold Ascii.compare. rewrite !N.compare_lt_iff. apply N.lt_trans.
Qed.

Lemma string_compare_lt_trans s1 :
  forall s2 s3,
    String.compare s1 s2 = Lt -> String.compare s2 s3 = Lt ->
    String.compare s1 s3 = Lt.
Proof.
  induction s1 as [|a s1 IH]; intros [|b s2] [|c s3]; cbn; try discriminate;
    try reflexivity.
  destruct (Ascii.compare a b) eqn:Eab; try discriminate;
    destruct (Ascii.compare b c) eqn:Ebc; try discriminate; intros H1 H2.
  - apply Ascii.compare_eq_iff in Eab, Ebc. subst.
    assert (R : Ascii.compare c c = Eq) by (unfold Ascii.compare; apply N.compare_refl).
    rewrite R. eapply IH; eassumption.
  - apply Ascii.compare_eq_iff in Eab. subst. now rewrite Ebc.
  - apply Ascii.compare_eq_iff in Ebc. subst. now rewrite Eab.
  - now rewrite (ascii_compare_lt_trans _ _ _ Eab Ebc).
Qed.

Lemma RuleComparator_trans a b c :
  RuleComparator a b = true -> RuleComparator b c = true ->
  RuleComparator a c = true.
Proof.
  unfold RuleComparator.
  destruct (rule_compare a b) eqn:E1; try discriminate.
  destruct (rule_compare b c) eqn:E2; try discriminate.
  intros _ _.
  assert (K : rule_compare a c = Lt); [|now rewrite K].
  destruct a, b, c; cbn in *; try discriminate; try reflexivity.
  eapply string_compare_lt_trans; eassumption.
Qed.

Lemma rule_compare_eq a b : rule_compare a b = Eq -> a = b.
Proof.
  destruct a, b; cbn; try discriminate; try reflexivity.
  intros H. apply String.compare_eq_iff in H. now subst.
Qed.

Lemma equiv_eq a b : StdMap.equiv a b = true <-> a = b.
Proof.
  unfold StdMap.equiv. split.
  - intros H. apply andb_true_iff in H. destruct H as [H1 H2].
    apply negb_true_iff in H1, H2. unfold RuleComparator in *.
    rewrite (rule_compare_antisym b a) in H2.
    destruct (rule_compare a b) eqn:E; try discriminate.
    now apply rule_compare_eq.
  - intros ->. now rewrite RuleComparator_irrefl.
Qed.

Lemma find_below k m : below k m -> StdMap.find k m = None.
Proof.
  induction m as [|[k' v'] m IH]; intros H; cbn [StdMap.find];
    [reflexivity|].
  assert (L : RuleComparator k k' = true) by (apply (H (k', v')); now left).
  unfold StdMap.equiv. rewrite L. cbn.
  apply IH. intros kv Hin. apply H. now right.
Qed.

Lemma increasing_insert kv m :
  increasing m -> increasing (StdMap.insert kv m).
Proof.
  induction m as [|[k' v'] m IH]; intros Hm; cbn [StdMap.insert].
  - cbn. split; [intros x []|exact I].
  - destruct Hm as [Hb Hm]. cbn [fst] in Hb.
    destruct (RuleComparator (fst kv) k') eqn:E1.
    + cbn [increasing]. split; [|split; assumption].
      intros x [<-|Hx]; [exact E1|].
      eapply RuleComparator_trans; [exact E1 | now apply Hb].
    + destruct (RuleComparator k' (fst kv)) eqn:E2.
      * cbn [increasing fst]. split; [|now apply IH].
        intros x Hx. apply In_insert in Hx.
        destruct Hx as [->|Hx]; [exact E2 | now apply Hb].
      * cbn [increasing fst]. split; assumption.
Qed.

(** Looking up a key after an insertion: what was there stays, and the
    new value is found only under a key that was not there. *)
Lemma find_insert k kv m :
  increasing m ->
  StdMap.find k (StdMap.insert kv m) =
  match StdMap.find k m with
  | Some v => Some v
  | None => if StdMap.equiv k (fst kv) then Some (snd kv) else None
  end.
Proof.
  destruct kv as [k0 v0]. cbn [fst snd].
  induction m as [|[k' v'] m IH]; intros Hm; cbn [StdMap.insert fst].
  - cbn. destruct (StdMap.equiv k k0); reflexivity.
  - destruct Hm as [Hb Hm]. cbn [fst] in Hb.
    destruct (RuleComparator k0 k') eqn:E1.
    + cbn [StdMap.find].
      destruct (StdMap.equiv k k0) eqn:Ek;
        [|destruct (StdMap.equiv k k'); [reflexivity|];
          destruct (StdMap.find k m); reflexivity].
      apply equiv_eq in Ek. subst k0.
      assert (N : StdMap.equiv k k' = false).
      { unfold StdMap.equiv. now rewrite E1. }
      rewrite N. rewrite find_below; [reflexivity|].
      intros x Hx. eapply RuleComparator_trans; [exact E1 | now apply Hb].
    + destruct (RuleComparator k' k0) eqn:E2.
      * cbn [StdMap.find].
        destruct (StdMap.equiv k k'); [reflexivity | now apply IH].
      * cbn [StdMap.find].
        destruct (StdMap.equiv k k') eqn:Ek; [reflexivity|].
        assert (Q : StdMap.equiv k0 k' = true).
        { unfold StdMap.equiv. now rewrite E1, E2. }
        apply equiv_eq in Q. subst k0. rewrite Ek.
        destruct (StdMap.find k m); reflexivity.
Qed.

Lemma find_fold k l :
  forall m, increasing m ->
  StdMap.find k (fold_left (fun m kv => StdMap.insert kv m) l m) =
  match StdMap.find k m with
  | Some v => Some v
  | None => first_of k l
  end.
Proof.
  unfold first_of.
  induction l as [|kv l IH]; intros m Hm; cbn [fold_left List.find].
  - destruct (StdMap.find k m); reflexivity.
  - rewrite (IH _ (increasing_insert kv m Hm)), (find_insert _ _ _ Hm).
    destruct (StdMap.find k m); [reflexivity|].
    destruct (StdMap.equiv k (fst kv)); reflexivity.
Qed.

Lemma collect_increasing l : increasing (ProductionGrammar.collect l).
Proof.
  unfold ProductionGrammar.collect.
  assert (G : forall m, increasing m ->
            increasing (fold_left (fun m kv => StdMap.insert kv m) l m)).
  { induction l as [|kv l IH]; intros m Hm; cbn [fold_left]; [exact Hm|].
    apply IH, increasing_insert, Hm. }
  apply G. exact I.
Qed.

(** X4: of the parsed production lines the table keeps, for every
    predecessor, the alternative of the first line with that predecessor;
    the lines that follow under the same predecessor leave no trace.  The
    keys of the table increase strictly, so no predecessor is there
    twice. *)
Theorem first_line_wins (l : list ProductionPair) :
  increasing (ProductionGrammar.collect l) /\
  forall k, StdMap.find k (ProductionGrammar.collect l) = first_of k l.
Proof.
  split; [apply collect_increasing|].
  intros k. unfold ProductionGrammar.collect.
  rewrite find_fold; [reflexivity | exact I].
Qed.

(** ** What a returned [LSystem] looks like *)

Lemma rule_of_char_symbol_rule c v :
  rule_of_char c = Some v -> symbol_rule v.
Proof.
  unfold rule_of_char.
  destruct (Ascii.eqb_spec c "F") as [->|HF].
  { intros H. inversion H. left. reflexivity. }
  destruct (Ascii.eqb_spec c "f") as [->|Hf].
  { intros H. inversion H. right. left. reflexivity. }
  destruct (isascii_ c) eqn:Ha; [|discriminate].
  destruct (Ascii.eqb_spec c " ") as [->|Hs]; [discriminate|].
  destruct (Ascii.eqb_spec c nl) as [->|Hn]; [discriminate|].
  cbn. intros H. inversion H. right. right. exists c. auto 7.
Qed.

Lemma rule_match_symbol_rule s v r :
  parse RuleGrammar.start CommentSkipper s = Match v r -> symbol_rule v.
Proof.
  intros H. apply RuleGrammar_start_match in H.
  destruct H as [c [_ H]]. eapply rule_of_char_symbol_rule. exact H.
Qed.

Lemma kleene_loop_symbol_rules n s l r :
  kleene_loop n RuleGrammar.start CommentSkipper s = Match l r ->
  Forall symbol_rule l.
Proof.
  revert s l r. induction n as [|n IH]; intros s l r; cbn [kleene_loop].
  - intros H. inversion H. constructor.
  - destruct (parse RuleGrammar.start CommentSkipper s) as [v r1| |] eqn:E;
      try discriminate.
    + destruct (kleene_loop n RuleGrammar.start CommentSkipper r1)
        as [l1 r2| |] eqn:E1; try discriminate.
      intros H. inversion H. subst. constructor.
      * eapply rule_match_symbol_rule. exact E.
      * eapply IH. exact E1.
    + intros H. inversion H. constructor.
Qed.

Lemma plus_symbol_rules s l r :
  parse (plus RuleGrammar.start) CommentSkipper s = Match l r ->
  Forall symbol_rule l /\ l <> [].
Proof.
  intros H. split; [|eapply plus_match_nonempty; exact H].
  unfold plus in H. cbn [parse] in H.
  destruct (parse RuleGrammar.start CommentSkipper s) as [v r1| |] eqn:E;
    try discriminate.
  unfold kleene_from in H.
  destruct (kleene_loop _ RuleGrammar.start CommentSkipper r1)
    as [l1 r2| |] eqn:E1; try discriminate.
  inversion H. subst. constructor.
  - eapply rule_match_symbol_rule. exact E.
  - eapply kleene_loop_symbol_rules. exact E1.
Qed.

Lemma insert_nonempty kv m : StdMap.insert kv m <> [].
Proof.
  destruct m as [|[k' v'] m]; cbn [StdMap.insert]; [discriminate|].
  destruct (RuleComparator (fst kv) k'); [discriminate|].
  destruct (RuleComparator k' (fst kv)); discriminate.
Qed.

Lemma collect_nonempty kv l : ProductionGrammar.collect (kv :: l) <> [].
Proof.
  unfold ProductionGrammar.collect. cbn [fold_left].
  assert (G : forall l m, m <> [] ->
            fold_left (fun m kv => StdMap.insert kv m) l m <> []).
  { clear. induction l as [|kv l IH]; intros m H; cbn; [exact H|].
    apply IH, insert_nonempty. }
  apply G, insert_nonempty.
Qed.

Lemma productions_nonempty s m r :
  parse ProductionGrammar.start CommentSkipper s = Match m r -> m <> [].
Proof.
  unfold ProductionGrammar.start, rule_named. cbn [parse]. intros H.
  apply action_match in H. destruct H as [l [H ->]].
  unfold list_ in H. cbn [parse] in H.
  destruct (parse ProductionGrammar.pair CommentSkipper s) as [kv0 r1| |];
    try discriminate.
  destruct (list_from _ _ _ r1) as [l' r2| |]; try discriminate.
  inversion H. apply collect_nonempty.
Qed.

(** X5: a returned [LSystem] is made of symbols: the axiom has at least
    one, every successor in the table has at least one, and every rule in
    the axiom, among the predecessors and in the successors is one of the
    two shared rules or the word rule of a single ASCII character other
    than space, newline, [F] and [f]. *)
Theorem returned_rules_are_symbols (s : string) (l : LSystem) :
  LSystemParser.parse s = Returned l ->
  axiom l <> [] /\ Forall symbol_rule (axiom l) /\
  forall k prods,
    In (k, prods) (productions l) ->
    symbol_rule k /\
    forall d succ,
      In (d, succ) prods -> succ <> [] /\ Forall symbol_rule succ.
Proof.
  intros H. destruct (returned_is_match _ _ H) as [r E].
  destruct (sequence_inv _ _ _ E) as [rest [Hh Hp]].
  destruct Hh as (r1 & r2 & r3 & r4 & r5 & r6 & r7 & r8 &
                  _ & _ & _ & _ & _ & _ & _ & H8 & Hax & _).
  split; [exact Hax|].
  split; [exact (proj1 (plus_symbol_rules _ _ _ H8))|].
  intros k prods Hin.
  destruct (productions_from_line _ _ _ Hp _ Hin)
    as (pos & p & r' & _ & Hprod & Hkv).
  unfold ProductionFactory in Hkv. inversion Hkv. subst k prods.
  destruct (production_inv _ _ _ Hprod) as (q1 & q2 & q3 & E1 & _ & _ & E4).
  split; [eapply rule_match_symbol_rule; exact E1|].
  intros d succ [K|[]]. inversion K. subst d succ.
  destruct (plus_symbol_rules _ _ _ E4) as [F N]. auto.
Qed.

Lemma returned_rules_are_symbols_witness :
  [JumpForwardRule] <> [] /\ Forall symbol_rule [JumpForwardRule] /\
  forall k prods,
    In (k, prods) [(WordRule "X", [(1 # 4, [MoveForwardRule; WordRule "X"])])] ->
    symbol_rule k /\
    forall d succ,
      In (d, succ) prods -> succ <> [] /\ Forall symbol_rule succ.
Proof.
  apply (returned_rules_are_symbols
           ("generations:-3 angle:.5 scale:2e1 axiom:f" ++ endl ++
            "X(0.25)->FX")
           {| generations := -3; angle := 1 # 2; scale := 20;
              axiom := [JumpForwardRule];
              productions :=
                [(WordRule "X", [(1 # 4, [MoveForwardRule; WordRule "X"])])] |}).
  vm_compute. reflexivity.
Defined.

(** X6: the table of a returned [LSystem] has at least one entry, its
    predecessors increase strictly, so none is there twice, and every
    entry holds exactly one alternative: no input gives a predecessor two
    successors to choose from. *)
Theorem returned_table_shape (s : string) (l : LSystem) :
  LSystemParser.parse s = Returned l ->
  productions l <> [] /\ increasing (productions l) /\
  forall k prods,
    In (k, prods) (productions l) -> exists d succ, prods = [(d, succ)].
Proof.
  intros H. destruct (returned_is_match _ _ H) as [r E].
  destruct (sequence_inv _ _ _ E) as [rest [_ Hp]].
  split; [eapply productions_nonempty; exact Hp|].
  split.
  - unfold ProductionGrammar.start, rule_named in Hp. cbn [parse] in Hp.
    apply action_match in Hp. destruct Hp as [ps [_ ->]].
    apply collect_increasing.
  - intros k prods Hin.
    destruct (productions_from_line _ _ _ Hp _ Hin)
      as (pos & p & r' & _ & _ & Hkv).
    unfold ProductionFactory in Hkv. inversion Hkv.
    exists (probability p), (successor p). reflexivity.
Qed.

Lemma returned_table_shape_witness :
  [(MoveForwardRule, [(1, [MoveForwardRule])]);
   (WordRule "X", [(1 # 2, [WordRule "X"; MoveForwardRule])])] <> [] /\
  increasing
    [(MoveForwardRule, [(1, [MoveForwardRule])]);
     (WordRule "X", [(1 # 2, [WordRule "X"; MoveForwardRule])])] /\
  forall k prods,
    In (k, prods)
      [(MoveForwardRule, [(1, [MoveForwardRule])]);
       (WordRule "X", [(1 # 2, [WordRule "X"; MoveForwardRule])])] ->
    exists d succ, prods = [(d, succ)].
Proof.
  apply (returned_table_shape
           ("generations:1 angle:1 scale:1 axiom:X" ++ endl ++
            "X(0.5)->XF" ++ endl ++ "F->F" ++ endl ++ "X->F")
           {| generations := 1; angle := 1; scale := 1;
              axiom := [WordRule "X"];
              productions :=
                [(MoveForwardRule, [(1, [MoveForwardRule])]);
                 (WordRule "X", [(1 # 2, [WordRule "X"; MoveForwardRule])])] |}).
  vm_compute. reflexivity.
Defined.

(** ** Comments and line ends *)

Lemma CommentSkipper_comment body z :
  no_newline body ->
  CommentSkipper (String "#" (body ++ String nl z)) = Some z.
Proof.
  intros H. cbn [CommentSkipper Ascii.eqb Bool.eqb].
  now rewrite not_newline_star_body.
Qed.

(** X7: a comment takes its newline with it.  After a comment the
    newline that separates two lines is still to come, and the symbols
    that follow the comment, on the next line, continue the run of
    symbols in front of it. *)
Theorem comment_takes_line_end (body z : string) :
  no_newline body ->
  skip_over CommentSkipper (String "#" (body ++ String nl z)) =
    skip_over CommentSkipper z /\
  parse (lit_char nl) CommentSkipper (String "#" (body ++ String nl z)) =
    parse (lit_char nl) CommentSkipper z /\
  kleene_from RuleGrammar.start CommentSkipper
    (String "#" (body ++ String nl z)) =
    kleene_from RuleGrammar.start CommentSkipper z.
Proof.
  intros H.
  assert (K : skip_over CommentSkipper (String "#" (body ++ String nl z)) =
              skip_over CommentSkipper z).
  { now rewrite skip_over_unfold, CommentSkipper_comment. }
  split; [exact K|]. split.
  - cbn [lit_char parse]. now rewrite K.
  - rewrite (kleene_from_unfold _ _ RuleGrammar_start_progress).
    rewrite (kleene_from_unfold _ _ RuleGrammar_start_progress z).
    now rewrite !RuleGrammar_start_parse, K.
Qed.

Lemma comment_takes_line_end_witness :
  kleene_from RuleGrammar.start CommentSkipper
    (String "#" (" first line" ++ String nl "B -> C")) =
  kleene_from RuleGrammar.start CommentSkipper "B -> C" /\
  kleene_from RuleGrammar.start CommentSkipper "B -> C" =
  Match [WordRule "B"; WordRule "-"; WordRule ">"; WordRule "C"] EmptyString.
Proof.
  split; [|vm_compute; reflexivity].
  refine (proj2 (proj2 (comment_takes_line_end " first line" "B -> C" _))).
  unfold no_newline. simpl. intros H.
  repeat (destruct H as [H|H]; [discriminate|]). exact H.
Defined.

(** ** The probability group *)

(** X8: an opening parenthesis commits the probability rule.  Behind it
    the rule never falls back to the default: it gives the number that
    [qi::double_] reads when a closing parenthesis follows, and throws
    otherwise, naming the number or the closing parenthesis. *)
Theorem probability_group_committed (s r1 : string) :
  skip_over CommentSkipper s = String "(" r1 ->
  match parse ProductionGrammar.probability CommentSkipper s with
  | Match d r =>
      exists r2,
        parse double_ CommentSkipper r1 = Match d r2 /\
        skip_over CommentSkipper r2 = String ")" r
  | NoMatch _ => False
  | ExpectationFailure w e =>
      (w = info_tag "real" /\ parse double_ CommentSkipper r1 = NoMatch e) \/
      (w = info_value ")" /\
       exists d r2,
         parse double_ CommentSkipper r1 = Match d r2 /\
         e = skip_over CommentSkipper r2 /\
         forall r, e <> String ")" r)
  end.
Proof.
  intros H.
  unfold ProductionGrammar.probability, rule_named, alternative, action,
    attr, expect, lit_char.
  cbn [parse what]. rewrite H. cbn [Ascii.eqb Bool.eqb].
  destruct (parse double_ CommentSkipper r1) as [d r2|pos|w e] eqn:E.
  - destruct (skip_over CommentSkipper r2) as [|b r3] eqn:E3.
    + right. split; [reflexivity|]. exists d, r2.
      repeat split; auto. discriminate.
    + destruct (Ascii.eqb_spec b ")") as [->|Hb].
      * cbn. exists r2. auto.
      * right. split; [reflexivity|]. exists d, r2.
        repeat split; auto. intros r K. inversion K. contradiction.
  - left. auto.
  - exfalso. cbn [double_ parse] in E.
    destruct (extract_real (skip_over CommentSkipper r1)) as [[d r]|];
      discriminate.
Qed.

Lemma probability_group_committed_witness :
  match parse ProductionGrammar.probability CommentSkipper " ( 0.5 -> F" with
  | Match d r =>
      exists r2,
        parse double_ CommentSkipper " 0.5 -> F" = Match d r2 /\
        skip_over CommentSkipper r2 = String ")" r
  | NoMatch _ => False
  | ExpectationFailure w e =>
      (w = info_tag "real" /\
       parse double_ CommentSkipper " 0.5 -> F" = NoMatch e) \/
      (w = info_value ")" /\
       exists d r2,
         parse double_ CommentSkipper " 0.5 -> F" = Match d r2 /\
         e = skip_over CommentSkipper r2 /\
         forall r, e <> String ")" r)
  end.
Proof.
  apply (probability_group_committed " ( 0.5 -> F" " 0.5 -> F").
  vm_compute. reflexivity.
Defined.

(** ** Where the symbols of a line end *)

Lemma rule_of_char_none c :
  c <> " "%char -> rule_of_char c = None -> c = nl \/ isascii_ c = false.
Proof.
  intros Hs. unfold rule_of_char.
  destruct (c =? "F")%char; [discriminate|].
  destruct (c =? "f")%char; [discriminate|].
  apply Ascii.eqb_neq in Hs. rewrite Hs.
  destruct (isascii_ c); [|auto].
  destruct (Ascii.eqb_spec c nl); [auto | discriminate].
Qed.

Lemma rule_nomatch_line_end s pos :
  parse RuleGrammar.start CommentSkipper s = NoMatch pos ->
  pos = skip_over CommentSkipper s /\ line_end pos.
Proof.
  rewrite RuleGrammar_start_parse.
  pose proof (skip_over_stuck s) as St.
  destruct (skip_over CommentSkipper s) as [|c r] eqn:E.
  - intros H. inversion H. split; [reflexivity | now left].
  - destruct (rule_of_char c) eqn:Ec; [discriminate|].
    intros H. inversion H. split; [reflexivity|].
    right. exists c, r. split; [reflexivity|].
    apply rule_of_char_none; [|exact Ec].
    intros ->. discriminate St.
Qed.

Lemma kleene_rest_line_end n :
  forall s l r,
    (String.length s < n)%nat ->
    kleene_loop n RuleGrammar.start CommentSkipper s = Match l r ->
    line_end r.
Proof.
  induction n as [|n IH]; intros s l r Hn; [lia|].
  cbn [kleene_loop].
  destruct (parse RuleGrammar.start CommentSkipper s) as [v r1|pos| ] eqn:E;
    try discriminate.
  - destruct (kleene_loop n RuleGrammar.start CommentSkipper r1)
      as [l1 r2| |] eqn:E1; try discriminate.
    intros H. inversion H. subst.
    apply RuleGrammar_start_progress in E.
    eapply IH; [|exact E1]. lia.
  - intros H. inversion H. subst.
    exact (proj2 (rule_nomatch_line_end _ _ E)).
Qed.

Lemma line_end_skipped r : line_end r -> skip_over CommentSkipper r = r.
Proof.
  intros L. rewrite skip_over_unfold.
  destruct L as [->|(c & r' & -> & [-> | Hc])]; [reflexivity..|].
  cbn [CommentSkipper].
  destruct (Ascii.eqb_spec c " ") as [->|_]; [discriminate Hc|].
  destruct (Ascii.eqb_spec c "#") as [->|_]; [discriminate Hc|].
  reflexivity.
Qed.

Lemma plus_rest_line_end s l r :
  parse (plus RuleGrammar.start) CommentSkipper s = Match l r -> line_end r.
Proof.
  intros H. unfold plus in H. cbn [parse] in H.
  destruct (parse RuleGrammar.start CommentSkipper s) as [v r1| |] eqn:E;
    try discriminate.
  unfold kleene_from in H.
  destruct (kleene_loop _ RuleGrammar.start CommentSkipper r1)
    as [l1 r2| |] eqn:E1; try discriminate.
  inversion H. subst.
  eapply kleene_rest_line_end; [|exact E1]. lia.
Qed.

Lemma pair_rest_line_end s kv r :
  parse ProductionGrammar.pair CommentSkipper s = Match kv r ->
  line_end r /\ skip_over CommentSkipper r = r.
Proof.
  unfold ProductionGrammar.pair, rule_named. cbn [parse]. intros H.
  apply action_match in H. destruct H as [p [H _]].
  destruct (production_inv _ _ _ H) as (r1 & r2 & r3 & _ & _ & _ & E4).
  apply plus_rest_line_end in E4.
  split; [exact E4 | apply line_end_skipped, E4].
Qed.

Lemma list_loop_rest_line_end n :
  forall s l r,
    line_end s /\ skip_over CommentSkipper s = s ->
    list_loop n ProductionGrammar.pair (lit_char nl) CommentSkipper s =
      Match l r ->
    line_end r /\ skip_over CommentSkipper r = r.
Proof.
  induction n as [|n IH]; intros s l r Hs; cbn [list_loop].
  - intros H. inversion H. subst. exact Hs.
  - destruct (parse (lit_char nl) CommentSkipper s) as [u r1| |];
      try discriminate.
    + destruct (parse ProductionGrammar.pair CommentSkipper r1)
        as [kv r2| |] eqn:E2; try discriminate.
      * destruct (list_loop n ProductionGrammar.pair (lit_char nl)
                    CommentSkipper r2) as [l' r3| |] eqn:E3;
          try discriminate.
        intros H. inversion H. subst.
        eapply IH; [|exact E3]. eapply pair_rest_line_end. exact E2.
      * intros H. inversion H. subst. exact Hs.
    + intros H. inversion H. subst. exact Hs.
Qed.

Lemma productions_rest_line_end s m r :
  parse ProductionGrammar.start CommentSkipper s = Match m r ->
  line_end r /\ skip_over CommentSkipper r = r.
Proof.
  unfold ProductionGrammar.start, rule_named. cbn [parse]. intros H.
  apply action_match in H. destruct H as [l [H _]].
  unfold list_ in H. cbn [parse] in H.
  destruct (parse ProductionGrammar.pair CommentSkipper s) as [kv0 r1| |]
    eqn:E; try discriminate.
  unfold list_from in H.
  destruct (list_loop _ ProductionGrammar.pair (lit_char nl) CommentSkipper r1)
    as [l' r2| |] eqn:E1; try discriminate.
  inversion H. subst.
  eapply list_loop_rest_line_end; [|exact E1].
  eapply pair_rest_line_end. exact E.
Qed.

(** X9: the symbols of an axiom or of a successor run to the end of
    their line: where [+rule] stops, the input is at its end, at a
    newline, or at a character outside ASCII; spaces and comments in
    front of that place are consumed. *)
Theorem symbols_run_to_line_end (s : string) (l : Rules) (r : string) :
  parse (plus RuleGrammar.start) CommentSkipper s = Match l r ->
  line_end r /\ skip_over CommentSkipper r = r.
Proof.
  intros H. apply plus_rest_line_end in H.
  split; [exact H | apply line_end_skipped; exact H].
Qed.

Lemma symbols_run_to_line_end_witness :
  line_end (endl ++ "X -> F") /\
  skip_over CommentSkipper (endl ++ "X -> F") = endl ++ "X -> F".
Proof.
  apply (symbols_run_to_line_end ("F f +  # turn" ++ endl ++ endl ++ "X -> F")
           [MoveForwardRule; JumpForwardRule; WordRule "+"]).
  vm_compute. reflexivity.
Defined.

(** X10: what a successful call leaves unread is a suffix of the input
    that begins at a line end: it is empty, or begins with a newline or
    with a character outside ASCII.  So the input is read up to the end
    of the last production line; nothing of a line is left behind. *)
Theorem unread_rest_at_line_end (s : string) (l : LSystem) (rest : string) :
  fst (phrase_parse s) = Some (l, rest) ->
  suffix rest s /\ line_end rest.
Proof.
  unfold phrase_parse, LSystemGrammar.start.
  pose proof (sound_sequence s) as Hs.
  destruct (parse LSystemGrammar.sequence CommentSkipper s)
    as [l' r|pos|w e] eqn:E; cbn [fst]; try discriminate.
  intros H. inversion H. subst l' rest.
  destruct (sequence_inv _ _ _ E) as [r0 [_ Hp]].
  destruct (productions_rest_line_end _ _ _ Hp) as [L K].
  rewrite K. split; [exact Hs | exact L].
Qed.

Lemma unread_rest_at_line_end_witness :
  suffix (endl ++ endl ++ "anything") (scenario ++ endl ++ endl ++ "anything") /\
  line_end (endl ++ endl ++ "anything").
Proof.
  apply (unread_rest_at_line_end _ scenario_lsystem).
  vm_compute. reflexivity.
Defined.

(** ** Failures behind the first keyword *)

(** X11: once the input begins (behind spaces and comments) with
    [generations:], every failure is reported: the message is the fixed
    prefix, the name of the component that was expected, one of the ten
    of [expected_names], and the text from the place of the failure, a
    suffix of the input, between quotes. *)
Theorem failure_behind_keyword_reported (s r msg : string) :
  strip_prefix "generations:" (skip_over CommentSkipper s) = Some r ->
  LSystemParser.parse s = DomainError msg ->
  exists w pos,
    In w expected_names /\ suffix pos s /\
    msg = "Cannot parse lsystem:" ++ LSystemGrammar.error_text w pos.
Proof.
  intros Hk H. destruct (error_message_shape _ _ H) as [[K _]|K].
  - rewrite Hk in K. discriminate.
  - exact K.
Qed.

Lemma failure_behind_keyword_reported_witness :
  exists w pos,
    In w expected_names /\ suffix pos ("#c" ++ endl ++ " generations: 3 angel:1") /\
    "Cannot parse lsystem:" ++
      LSystemGrammar.error_text (info_value "angle:") "angel:1" =
    "Cannot parse lsystem:" ++ LSystemGrammar.error_text w pos.
Proof.
  apply (failure_behind_keyword_reported
           ("#c" ++ endl ++ " generations: 3 angel:1") " 3 angel:1").
  - vm_compute. reflexivity.
  - vm_compute. reflexivity.
Defined.
